(** * Cluster health check: dependency-aware operator evaluation

    A shallow embedding of [pkg/health-check/cmd.go]: the dependency
    expander ([expandDependencies], [getAllUpstreamDependencies], [dfs]),
    the topological sequencer ([TopologicalSort]), the cascading evaluator
    (the operator loop of [Options.Run]), the machine/node consistency
    check and the report builder ([tcAppend]), followed by the properties
    the design document states about them. *)

From Stdlib Require Import String Ascii ZArith Lia.
From stdpp Require Import base option list sets gmap strings sorting pretty relations.

Local Set Warnings "-register-all,-clear-no-such-hyp".
Local Open Scope Z_scope.
Local Open Scope nat_scope.

(** ** What the program takes from its runtime and libraries *)

(** The values of unstructured content, as [objx] tells them apart: nil,
    a string, a bool, a number of one of Go's integer types, a
    [map[string]interface{}], a [[]interface{}], and whatever else a
    value may hold (a float, a struct, ...).  The program does one thing
    only with a value of the last kind, print it, so it is held as the
    text that [Value.String()] returns for it. *)
Inductive value :=
| VNil
| VString (s : string)
| VBool (b : bool)
| VInt (n : Z)
| VMap (fields : list (string * value))
| VSlice (elems : list value)
| VOther (printed : string).

(** Library functions the embedding does not look into: the [%q] verb of
    [fmt.Sprintf], its [%#v] verb on a map or a slice, [strings.ToLower]
    and [filepath.Join]. *)
Record GoLib := {
  fmt_q : string → string;
  fmt_sharp_v : value → string;
  strings_ToLower : string → string;
  filepath_Join : string → string → string
}.

(** Go leaves the order of [for k := range m] over a map unspecified.  A
    [MapOrder] picks, for every key set, the order in which one run visits
    it; two runs may use two different ones. *)
Record MapOrder := {
  rangeKeys : gset string → list string;
  rangeKeys_perm : ∀ X, rangeKeys X ≡ₚ elements X
}.

(** [sort.Strings]: ascending byte-wise lexicographic order. *)
Definition sortStrings (l : list string) : list string :=
  merge_sort String.le l.

(** A loop body that may give up (out of fuel), run over a slice. *)
Fixpoint forEachM {A S : Type} (body : A → S → option S) (l : list A) (s : S)
  : option S :=
  match l with
  | [] => Some s
  | x :: rest =>
      match body x s with
      | Some s' => forEachM body rest s'
      | None => None
      end
  end.

(** ** JUnit report structures ([junitapi]) and [tcAppend] *)

Record JUnitTestCase := {
  tc_Name : string;
  tc_FailureOutput : option string;
  tc_SkipMessage : option string
}.

(** The counters are Go [uint]: 64 bits, wrapping. *)
Definition uint_incr (n : N) : N := ((n + 1) mod 2 ^ 64)%N.
Definition uint_of_len {A} (l : list A) : N := (N.of_nat (length l) mod 2 ^ 64)%N.

Record JUnitTestSuite := {
  suite_Name : string;
  NumTests : N;
  NumSkipped : N;
  NumFailed : N;
  TestCases : list JUnitTestCase
}.

Definition tcAppend (suite : JUnitTestSuite) (tcName tcFailureMsg tcSkipMsg : string)
  : JUnitTestSuite :=
  if decide (tcFailureMsg ≠ "") then
    {| suite_Name := suite_Name suite;
       NumTests := NumTests suite;
       NumSkipped := NumSkipped suite;
       NumFailed := uint_incr (NumFailed suite);
       TestCases := TestCases suite ++
         [ {| tc_Name := tcName; tc_FailureOutput := Some tcFailureMsg;
              tc_SkipMessage := None |} ] |}
  else if decide (tcSkipMsg ≠ "") then
    {| suite_Name := suite_Name suite;
       NumTests := NumTests suite;
       NumSkipped := uint_incr (NumSkipped suite);
       NumFailed := NumFailed suite;
       TestCases := TestCases suite ++
         [ {| tc_Name := tcName; tc_FailureOutput := None;
              tc_SkipMessage := Some tcSkipMsg |} ] |}
  else
    {| suite_Name := suite_Name suite;
       NumTests := NumTests suite;
       NumSkipped := NumSkipped suite;
       NumFailed := NumFailed suite;
       TestCases := TestCases suite ++
         [ {| tc_Name := tcName; tc_FailureOutput := None;
              tc_SkipMessage := None |} ] |}.

(** The three outcomes a test case can carry. *)
Definition tcPassed (name : string) : JUnitTestCase :=
  {| tc_Name := name; tc_FailureOutput := None; tc_SkipMessage := None |}.
Definition tcFailed (name msg : string) : JUnitTestCase :=
  {| tc_Name := name; tc_FailureOutput := Some msg; tc_SkipMessage := None |}.
Definition tcSkipped (name msg : string) : JUnitTestCase :=
  {| tc_Name := name; tc_FailureOutput := None; tc_SkipMessage := Some msg |}.

(** ** Semi-structured records ([objx.Map] over unstructured content) *)

(** [objx.Map]; the nil map behaves as the empty one under [Get]. *)
Abbreviation objxMap := (list (string * value)).

Fixpoint fieldOf (key : string) (m : objxMap) : option value :=
  match m with
  | [] => None
  | (k, v) :: rest => if decide (k = key) then Some v else fieldOf key rest
  end.

(** [m.Get("a.b")]: the selector is given by its dot-separated segments. *)
Fixpoint access (selector : list string) (cur : value) : option value :=
  match selector with
  | [] => Some cur
  | key :: rest =>
      match cur with
      | VMap m =>
          match fieldOf key m with
          | Some v => access rest v
          | None => None
          end
      | _ => None
      end
  end.

Definition Get (m : objxMap) (selector : list string) : option value :=
  access selector (VMap m).

(** [Value.String()] of objx: empty for an absent or nil value, the string
    itself, [strconv.FormatBool] of a bool, [strconv.FormatInt] of an
    integer, the [%#v] print of a map or a slice, and for a value of
    another kind the text it is held by. *)
Definition String_ (lib : GoLib) (v : option value) : string :=
  match v with
  | None | Some VNil => ""
  | Some (VString s) => s
  | Some (VBool b) => if b then "true" else "false"
  | Some (VInt n) => pretty n
  | Some (VOther printed) => printed
  | Some v => fmt_sharp_v lib v
  end.

Definition objects (from : option value) : list objxMap :=
  match from with
  | Some (VSlice elems) =>
      omap (λ i, match i with VMap msi => Some msi | _ => None end) elems
  | _ => []
  end.

Fixpoint firstOfType (lib : GoLib) (cond : string) (objs : list objxMap) : objxMap :=
  match objs with
  | [] => []
  | obj :: rest =>
      if decide (String_ lib (Get obj ["type"]) = cond) then obj
      else firstOfType lib cond rest
  end.

Definition condition (lib : GoLib) (cv : objxMap) (cond : string) : objxMap :=
  firstOfType lib cond (objects (Get cv ["status"; "conditions"])).

(** ** Dependency graph expander *)

Abbreviation depMap := (gmap string (list string)).

(** [dfs]; [visited] and [resultSet] are [map[string]bool] holding only
    [true], that is sets.  The recursion depth is bounded by [fuel]. *)
Fixpoint dfs (fuel : nat) (current : string) (deps : depMap)
    (st : gset string * gset string) : option (gset string * gset string) :=
  match fuel with
  | O => None
  | S fuel' =>
      let '(visited, resultSet) := st in
      if decide (current ∈ visited) then Some (visited, resultSet)
      else
        let visited := {[current]} ∪ visited in
        match deps !! current with
        | Some directDeps =>
            forEachM
              (λ dep '(visited, resultSet),
                 dfs fuel' dep deps (visited, {[dep]} ∪ resultSet))
              directDeps (visited, resultSet)
        | None => Some (visited, resultSet)
        end
  end.

(** Every nested call has marked one more key of [deps] as visited. *)
Definition dfsFuel (deps : depMap) : nat := S (size (dom deps)).

Definition getAllUpstreamDependencies (ord : MapOrder) (op : string) (deps : depMap)
  : option (list string) :=
  match dfs (dfsFuel deps) op deps (∅, ∅) with
  | Some (_, resultSet) => Some (sortStrings (rangeKeys ord resultSet))
  | None => None
  end.

Definition coreSetOf (ord : MapOrder) (manualDeps : depMap) : gset string :=
  let coreSet := foldl (λ coreSet op, {[op]} ∪ coreSet) ∅
                   (rangeKeys ord (dom manualDeps)) in
  foldl (λ coreSet op,
           foldl (λ coreSet dep, {[dep]} ∪ coreSet) coreSet
             (default [] (manualDeps !! op)))
    coreSet (rangeKeys ord (dom manualDeps)).

Definition expandDependencies (ord : MapOrder) (manualDeps : depMap) : option depMap :=
  forEachM
    (λ op finalDeps,
       match manualDeps !! op with
       | Some _ =>
           match getAllUpstreamDependencies ord op manualDeps with
           | Some allDeps => Some (<[op := allDeps]> finalDeps)
           | None => None
           end
       | None => Some (<[op := []]> finalDeps)
       end)
    (rangeKeys ord (coreSetOf ord manualDeps)) ∅.

(** ** Topological sequencer *)

Fixpoint stringInSlice (str : string) (slice : list string) : bool :=
  match slice with
  | [] => false
  | s :: rest => if decide (s = str) then true else stringInSlice str rest
  end.

(** Reading a Go map at an absent key gives the zero value. *)
Definition degreeOf (inDegree : gmap string Z) (op : string) : Z :=
  default 0%Z (inDegree !! op).
Definition depsOf (dependencies : depMap) (op : string) : list string :=
  default [] (dependencies !! op).

(** The counters are Go [int]; a slice has fewer than [2^63] entries, so
    they are kept as unbounded integers (they do go below zero). *)
Definition initInDegree (operators : list string) : gmap string Z :=
  foldl (λ inDegree op, <[op := 0%Z]> inDegree) ∅ operators.

Definition countInDegree (operators : list string) (dependencies : depMap)
    (inDegree : gmap string Z) : gmap string Z :=
  foldl (λ inDegree op,
           foldl (λ inDegree dep,
                    if stringInSlice dep operators
                    then <[op := (degreeOf inDegree op + 1)%Z]> inDegree
                    else inDegree)
             inDegree (depsOf dependencies op))
    inDegree operators.

Definition seedQueue (operators : list string) (inDegree : gmap string Z)
  : list string :=
  filter (λ op, degreeOf inDegree op = 0%Z) operators.

(** The inner loop run after [node] is popped. *)
Definition releaseStep (node : string) (dependencies : depMap)
    (st : gmap string Z * list string) (op : string) : gmap string Z * list string :=
  let '(inDegree, queue) := st in
  if stringInSlice node (depsOf dependencies op) then
    let d := (degreeOf inDegree op - 1)%Z in
    let inDegree := <[op := d]> inDegree in
    if decide (d = 0%Z) then (inDegree, queue ++ [op]) else (inDegree, queue)
  else (inDegree, queue).

Definition releaseNode (node : string) (operators : list string)
    (dependencies : depMap) (st : gmap string Z * list string)
  : gmap string Z * list string :=
  foldl (releaseStep node dependencies) st operators.

(** [for len(queue) > 0 { ... }], one iteration per unit of [fuel]. *)
Fixpoint kahnLoop (fuel : nat) (operators : list string) (dependencies : depMap)
    (inDegree : gmap string Z) (queue sorted : list string) : option (list string) :=
  match queue with
  | [] => Some sorted
  | node :: queue =>
      match fuel with
      | O => None
      | S fuel' =>
          let sorted := sorted ++ [node] in
          let '(inDegree, queue) :=
            releaseNode node operators dependencies (inDegree, queue) in
          kahnLoop fuel' operators dependencies inDegree queue sorted
      end
  end.

Definition cycleError : string := "dependency graph has a cycle".

(** The result is Go's pair [([]string, error)]; the nil slice is [[]]. *)
Definition TopologicalSort (operators : list string) (dependencies : depMap)
  : option (list string * option string) :=
  let inDegree := countInDegree operators dependencies (initInDegree operators) in
  let queue := seedQueue operators inDegree in
  match kahnLoop (size inDegree + length queue) operators dependencies
          inDegree queue [] with
  | Some sorted =>
      if decide (length sorted ≠ length operators)
      then Some ([], Some cycleError)
      else Some (sorted, None)
  | None => None
  end.

(** ** Cascading evaluator: the operator loop of [Options.Run] *)

Record finalOperator := {
  item_Name : string;
  item_Op : option objxMap   (* [None] is the nil map *)
}.

Definition operatorsMapOf (lib : GoLib) (clusterOperatorsObj : objxMap)
  : gmap string objxMap :=
  foldl (λ operatorsMap item,
           <[String_ lib (Get item ["metadata"; "name"]) := item]> operatorsMap)
    ∅ (objects (Get clusterOperatorsObj ["items"])).

Definition consumeStep (st : list finalOperator * gmap string objxMap)
    (opName : string) : list finalOperator * gmap string objxMap :=
  let '(finalOperators, operatorsMap) := st in
  match operatorsMap !! opName with
  | Some op =>
      (finalOperators ++ [ {| item_Name := opName; item_Op := Some op |} ],
       delete opName operatorsMap)
  | None =>
      (finalOperators ++ [ {| item_Name := opName; item_Op := None |} ],
       operatorsMap)
  end.

Definition consumeCore (sortedCoreOperators : list string)
    (operatorsMap : gmap string objxMap)
  : list finalOperator * gmap string objxMap :=
  foldl consumeStep ([], operatorsMap) sortedCoreOperators.

Definition leftOperators (ord : MapOrder) (operatorsMap : gmap string objxMap)
  : list finalOperator :=
  omap (λ opName,
          match operatorsMap !! opName with
          | Some op => Some {| item_Name := opName; item_Op := Some op |}
          | None => None
          end)
    (rangeKeys ord (dom operatorsMap)).

Definition tcNamePrefix : string := "operator conditions".

Section evaluator.
Variable lib : GoLib.

Definition notFoundMsg (opName : string) : string :=
  "Operator " +:+ fmt_q lib opName +:+ " not found in the cluster, skipping".
Definition preconditionMsg (dep : string) : string :=
  "Precondition operator " +:+ fmt_q lib dep +:+ " failed, skipping".
Definition conditionsMsg (opName available degraded progressing : string) : string :=
  "Operator " +:+ fmt_q lib opName +:+ " - Available=" +:+ available
    +:+ ", Degraded=" +:+ degraded +:+ ", Progressing=" +:+ progressing.

(** The loop over the expanded dependencies, left at the first failed one. *)
Fixpoint dependencySkipMsg (deps : list string) (failedOperators : gset string)
  : string :=
  match deps with
  | [] => ""
  | dep :: rest =>
      if decide (dep ∈ failedOperators) then preconditionMsg dep
      else dependencySkipMsg rest failedOperators
  end.

(** One iteration of the stage-2 loop. *)
Definition checkOperator (finalOperatorDependencies : depMap)
    (st : JUnitTestSuite * gset string) (item : finalOperator)
  : JUnitTestSuite * gset string :=
  let '(suite, failedOperators) := st in
  let opName := item_Name item in
  let op := item_Op item in
  let tcName := tcNamePrefix +:+ " " +:+ opName in
  let skipMsg :=
    match op with
    | None => notFoundMsg opName
    | Some _ =>
        dependencySkipMsg (depsOf finalOperatorDependencies opName) failedOperators
    end in
  if decide (skipMsg ≠ "") then (tcAppend suite tcName "" skipMsg, failedOperators)
  else
    let op := default [] op in
    let available := String_ lib (Get (condition lib op "Available") ["status"]) in
    let degraded := String_ lib (Get (condition lib op "Degraded") ["status"]) in
    let progressing := String_ lib (Get (condition lib op "Progressing") ["status"]) in
    if decide (available = "True" ∧ degraded = "False" ∧ progressing = "False")
    then (tcAppend suite tcName "" "", failedOperators)
    else
      let failureMsg := conditionsMsg opName available degraded progressing in
      (tcAppend suite tcName failureMsg "", {[opName]} ∪ failedOperators).

Definition checkOperators (finalOperatorDependencies : depMap)
    (finalOperators : list finalOperator) (suite : JUnitTestSuite)
  : JUnitTestSuite * gset string :=
  foldl (checkOperator finalOperatorDependencies) (suite, ∅) finalOperators.

(** Stages 1 and 2 of [Options.Run] from the listed cluster operators on.
    The outer [None] is a nested computation out of fuel; the inner
    [None] is the early [return nil] after a failed sort. *)
Definition operatorStage (ord : MapOrder) (operatorDependencies : depMap)
    (clusterOperatorsObj : objxMap) (suite : JUnitTestSuite)
  : option (option (JUnitTestSuite * gset string)) :=
  let operatorsMap := operatorsMapOf lib clusterOperatorsObj in
  match expandDependencies ord operatorDependencies with
  | None => None
  | Some finalOperatorDependencies =>
      let coreOperators :=
        sortStrings (rangeKeys ord (dom finalOperatorDependencies)) in
      match TopologicalSort coreOperators finalOperatorDependencies with
      | None => None
      | Some (_, Some err) => Some None
      | Some (sortedCoreOperators, None) =>
          let '(finalOperators, operatorsMap) :=
            consumeCore sortedCoreOperators operatorsMap in
          let finalOperators := finalOperators ++ leftOperators ord operatorsMap in
          Some (Some (checkOperators finalOperatorDependencies finalOperators suite))
      end
  end.
End evaluator.

(** ** Machine and node consistency check *)

Record Machine := {
  machine_Name : string;    (* [GetName()] *)
  machine_phase : string    (* [status.phase], empty when absent *)
}.

Record Node := {
  node_Name : string;
  node_schedulable : bool   (* [e2enode.IsNodeSchedulable] *)
}.

(** [strings.Join] *)
Fixpoint joinStrings (elems : list string) (sep : string) : string :=
  match elems with
  | [] => ""
  | [s] => s
  | s :: rest => s +:+ sep +:+ joinStrings rest sep
  end.

Definition machinesTcName : string := "all machines should be in Running state".
Definition nodesTcName : string := "all nodes should be ready".
Definition countTcName : string := "node count should match or exceed machine count".
Definition noMachinesMsg : string :=
  "No Machines found or could not retrieve list. Skipping Machine check.".

Section consistency.
Variable lib : GoLib.

Definition listMachinesErrMsg (err : string) : string :=
  "Could not list machines: " +:+ err
    +:+ ". The Machine API might not be available.".

Definition scanMachines (items : list Machine) : nat * list string :=
  foldl (λ '(runningMachineCount, notRunningMachines) machine,
           let phase := machine_phase machine in
           if decide (strings_ToLower lib phase = "running")
           then (S runningMachineCount, notRunningMachines)
           else (runningMachineCount,
                 notRunningMachines ++
                   [ "Machine " +:+ fmt_q lib (machine_Name machine)
                       +:+ " is in " +:+ fmt_q lib phase +:+ " state" ]))
    (0, []) items.

Definition getUnreadyOrUnschedulableNodeNames (allNodes : list Node) : list string :=
  foldl (λ badNodeNames node,
           if negb (node_schedulable node) then badNodeNames ++ [node_Name node]
           else badNodeNames)
    [] allNodes.

(** [machineList], [machineErr]: the two results of listing the machines
    (the list is a pointer, [None] when nil).  [nodeItems], [nodeErr]:
    the same for the nodes, whose typed client always hands back a list. *)
Definition checkMachineNodeConsistency
    (machineList : option (list Machine)) (machineErr : option string)
    (nodeItems : list Node) (nodeErr : option string)
    (suite : JUnitTestSuite) : JUnitTestSuite :=
  (* ===== Case 1 ===== *)
  let tcName := machinesTcName in
  let suite :=
    match machineErr with
    | Some err => tcAppend suite tcName (listMachinesErrMsg err) ""
    | None => suite
    end in
  let '(suite, runningMachineCount) :=
    match machineList with
    | Some (m :: ms) =>
        let items := m :: ms in
        let '(runningMachineCount, notRunningMachines) := scanMachines items in
        if decide (length notRunningMachines = 0)
        then (tcAppend suite tcName "" "", runningMachineCount)
        else
          let message :=
            "Found " +:+ pretty (length notRunningMachines) +:+ " out of "
              +:+ pretty (length items) +:+ " Machines not in Running state: "
              +:+ joinStrings notRunningMachines " " in
          (tcAppend suite tcName message "", runningMachineCount)
    | _ => (tcAppend suite tcName "" noMachinesMsg, 0)
    end in
  (* ===== Case 2 ===== *)
  let tcName := nodesTcName in
  match nodeErr with
  | Some err => tcAppend suite tcName ("Failed to list nodes: " +:+ err +:+ ".") ""
  | None =>
      let notReadyNodes := getUnreadyOrUnschedulableNodeNames nodeItems in
      let suite :=
        if decide (length notReadyNodes = 0) then tcAppend suite tcName "" ""
        else
          tcAppend suite tcName
            ("Found " +:+ pretty (length notReadyNodes) +:+ " out of "
               +:+ pretty (length nodeItems)
               +:+ " Nodes not Ready or unscheduable: "
               +:+ joinStrings notReadyNodes " ") "" in
      (* ===== Case 3 ===== *)
      let tcName := countTcName in
      let totalNodeCount := Z.of_nat (length nodeItems) in
      let readyNodeCount := (totalNodeCount - Z.of_nat (length notReadyNodes))%Z in
      if decide (Z.of_nat runningMachineCount ≤ readyNodeCount)%Z
      then tcAppend suite tcName "" ""
      else
        let message :=
          "Ready and Scheduable Nodes count (" +:+ pretty readyNodeCount
            +:+ ") is less than Running Machine count ("
            +:+ pretty runningMachineCount +:+ "): "
            +:+ "Ready and Scheduable Nodes:" in
        let message :=
          foldl (λ message node,
                   if node_schedulable node
                   then message +:+ " " +:+ node_Name node else message)
            message nodeItems in
        let message := message +:+ "; Running Machines:" in
        let message :=
          foldl (λ message machine,
                   if decide (strings_ToLower lib (machine_phase machine) = "running")
                   then message +:+ " " +:+ machine_Name machine +:+ " "
                   else message)
            message (default [] machineList) in
        tcAppend suite tcName message ""
  end.
End consistency.

(** ** Cluster version check *)

Definition getInfoFromCondition (lib : GoLib) (cond : objxMap) : string :=
  String_ lib (Get cond ["status"]) +:+ " | " +:+ String_ lib (Get cond ["reason"])
    +:+ " | " +:+ String_ lib (Get cond ["message"]).

(** [checkClusterVersionStable] after the fetch of the version object:
    the lines it logs at error level, and the error it returns. *)
Definition checkClusterVersionStable (lib : GoLib) (cv : objxMap)
    (getErr : option string) : list string * option string :=
  match getErr with
  | Some err => (["Fail to get cluster version:"], Some err)
  | None =>
      let cond := condition lib cv "Available" in
      if decide (String_ lib (Get cond ["status"]) ≠ "True") then
        (["ClusterVersion Available=" +:+ getInfoFromCondition lib cond],
         Some "clusterversion not available")
      else
        let cond := condition lib cv "Failing" in
        if decide (String_ lib (Get cond ["status"]) ≠ "False") then
          (["ClusterVersion Failing=" +:+ getInfoFromCondition lib cond],
           Some "clusterversion is failing")
        else
          let cond := condition lib cv "Progressing" in
          if decide (String_ lib (Get cond ["status"]) ≠ "False") then
            (["ClusterVersion Progressing=" +:+ getInfoFromCondition lib cond],
             Some "clusterversion is progressing")
          else ([], None)
  end.

(** ** The report file and [Options.Run] *)

Record Options := { JUnitDir : string }.

(** A UTC wall-clock time, as [time.Now().UTC()] gives it. *)
Record Time := {
  t_year : nat; t_month : nat; t_day : nat;
  t_hour : nat; t_minute : nat; t_second : nat
}.

Fixpoint zeros (n : nat) : string :=
  match n with
  | O => ""
  | S n => "0" +:+ zeros n
  end.

(** Decimal, left-padded with zeros to [width] digits. *)
Definition zeroPad (width n : nat) : string :=
  let digits := pretty n in
  zeros (width - String.length digits) +:+ digits.

(** [t.Format("20060102-150405")] *)
Definition formatStamp (t : Time) : string :=
  zeroPad 4 (t_year t) +:+ zeroPad 2 (t_month t) +:+ zeroPad 2 (t_day t) +:+ "-"
    +:+ zeroPad 2 (t_hour t) +:+ zeroPad 2 (t_minute t) +:+ zeroPad 2 (t_second t).

Definition reportFileName (start : Time) : string :=
  let filePrefix := "cluster-health-check" in
  let timeSuffix := "_" +:+ formatStamp start in
  filePrefix +:+ "_" +:+ timeSuffix +:+ ".xml".

(** What the fetches of one run return. *)
Record ClusterData := {
  machineList : option (list Machine);
  machineErr : option string;
  nodeItems : list Node;
  nodeErr : option string;
  clusterOperatorsObj : objxMap;
  clusterOperatorsErr : option string
}.

(** What a run that reaches the end leaves behind: the suite it printed and
    the path it wrote the report to, if any. *)
Record RunEffects := {
  reported : JUnitTestSuite;
  writtenTo : option string
}.

Definition emptySuite : JUnitTestSuite :=
  {| suite_Name := "Cluster Health Check"; NumTests := 0; NumSkipped := 0;
     NumFailed := 0; TestCases := [] |}.

(** [Options.Run] once the clients exist.  The cluster-version check only
    logs; marshalling the suite is taken to succeed.  The outer [None] is
    a nested computation out of fuel, the inner [None] an early
    [return nil] with nothing reported. *)
Definition Run (lib : GoLib) (ord : MapOrder) (opt : Options)
    (operatorDependencies : depMap) (start : Time) (cluster : ClusterData)
  : option (option RunEffects) :=
  let suite := emptySuite in
  let suite :=
    checkMachineNodeConsistency lib (machineList cluster) (machineErr cluster)
      (nodeItems cluster) (nodeErr cluster) suite in
  match clusterOperatorsErr cluster with
  | Some _ => Some None
  | None =>
      match operatorStage lib ord operatorDependencies
              (clusterOperatorsObj cluster) suite with
      | None => None
      | Some None => Some None
      | Some (Some (suite, _)) =>
          let suite :=
            {| suite_Name := suite_Name suite;
               NumTests := uint_of_len (TestCases suite);
               NumSkipped := NumSkipped suite;
               NumFailed := NumFailed suite;
               TestCases := TestCases suite |} in
          Some (Some {| reported := suite;
                        writtenTo :=
                          if decide (JUnitDir opt ≠ "")
                          then Some (filepath_Join lib (JUnitDir opt)
                                       (reportFileName start))
                          else None |})
      end
  end.

(** The compiled-in dependency table. *)
Definition operatorDependencies : depMap :=
  list_to_map
    [ ("etcd", []);
      ("network", ["etcd"]);
      ("kube-apiserver", ["etcd"; "network"]);
      ("kube-controller-manager", ["kube-apiserver"]);
      ("kube-scheduler", ["kube-apiserver"]);
      ("service-ca", ["kube-apiserver"]);
      ("cloud-credential", ["network"]);
      ("dns", ["kube-apiserver"]);
      ("openshift-apiserver", ["kube-apiserver"]);
      ("openshift-controller-manager", ["openshift-apiserver"; "kube-apiserver"]);
      ("cloud-controller-manager", ["kube-apiserver"; "cloud-credential"]);
      ("machine-api", ["cloud-controller-manager"; "cloud-credential"; "kube-apiserver"]);
      ("machine-config", ["kube-apiserver"; "openshift-apiserver"; "machine-api"]);
      ("ingress", ["network"; "machine-api"; "cloud-credential"; "dns"]);
      ("storage", ["cloud-credential"; "machine-api"]);
      ("image-registry", ["ingress"; "cloud-credential"]);
      ("authentication", ["ingress"]);
      ("console", ["authentication"; "ingress"]);
      ("monitoring", ["storage"]) ].

(** * Vocabulary of the properties *)

(** ** Dependencies *)

(** [a] lists [b] among its direct dependencies. *)
Definition dependsOn (deps : depMap) (a b : string) : Prop :=
  ∃ directDeps, deps !! a = Some directDeps ∧ b ∈ directDeps.

(** The body of the loop of [dfs] over the direct dependencies. *)
Definition dfsBody (deps : depMap) (fuel : nat) (dep : string)
    (st : gset string * gset string) : option (gset string * gset string) :=
  let '(visited, resultSet) := st in
  dfs fuel dep deps (visited, {[dep]} ∪ resultSet).

(** What a finished traversal has done: the two sets only grow, the start
    node is visited, every node visited by this call has all its direct
    dependencies recorded and visited, and whatever this call recorded is
    reachable from the start node. *)
Definition dfsPost (deps : depMap) (current : string) (v r v' r' : gset string) : Prop :=
  v ⊆ v' ∧ r ⊆ r' ∧ current ∈ v' ∧
  (∀ x d, x ∈ v' → x ∉ v → dependsOn deps x d → d ∈ r' ∧ d ∈ v') ∧
  (∀ d, d ∈ r' → d ∉ r → tc (dependsOn deps) current d).

(** The expanded list the expander files under [op]. *)
Definition expandedOf (ord : MapOrder) (manualDeps : depMap) (op : string)
  : list string :=
  match manualDeps !! op with
  | Some _ => default [] (getAllUpstreamDependencies ord op manualDeps)
  | None => []
  end.

(** The operator list handed to the sequencer. *)
Definition coreOperatorsOf (ord : MapOrder) (finalDeps : depMap) : list string :=
  sortStrings (rangeKeys ord (dom finalDeps)).

(** ** Orders and cycles *)

(** [b] stands at a strictly smaller index than [a]. *)
Definition appearsBefore (l : list string) (b a : string) : Prop :=
  ∃ i j, l !! i = Some b ∧ l !! j = Some a ∧ i < j.

(** The dependency relation restricted to the operator set. *)
Definition restrictedDep (operators : list string) (dependencies : depMap)
    (a b : string) : Prop :=
  a ∈ operators ∧ b ∈ operators ∧ b ∈ depsOf dependencies a.

Definition hasCycle (operators : list string) (dependencies : depMap) : Prop :=
  ∃ a, tc (restrictedDep operators dependencies) a a.

(** The dependencies of [op] that are operators themselves, as listed. *)
Definition innerDeps (operators : list string) (dependencies : depMap) (op : string)
  : list string :=
  filter (λ dep, dep ∈ operators) (depsOf dependencies op).

(** The nodes of [sorted] that [op] lists as a dependency. *)
Definition released (dependencies : depMap) (op : string) (sorted : list string)
  : list string :=
  filter (λ node, node ∈ depsOf dependencies op) sorted.

(** What holds each time the main loop of the sequencer tests its queue. *)
Record kahnInv (operators : list string) (dependencies : depMap)
    (m : gmap string Z) (queue sorted : list string) : Prop := {
  inv_NoDup : NoDup (sorted ++ queue);
  inv_ops : ∀ x, x ∈ sorted ++ queue → x ∈ operators;
  inv_degree : ∀ op, op ∈ operators →
    degreeOf m op
    = (Z.of_nat (length (innerDeps operators dependencies op))
       - Z.of_nat (length (released dependencies op sorted)))%Z;
  inv_zero : ∀ a, a ∈ sorted ++ queue → degreeOf m a = 0%Z;
  inv_before : ∀ i a b,
    sorted !! i = Some a → b ∈ innerDeps operators dependencies a →
    ∃ j, j < i ∧ sorted !! j = Some b
}.

(** The operators still waiting: those with a positive counter. *)
Definition waiting (m : gmap string Z) : nat :=
  size (filter (λ kv : string * Z, (0 < kv.2)%Z) m).

(** ** Reports *)

Definition tcNameOf (opName : string) : string := tcNamePrefix +:+ " " +:+ opName.

(** The raw status string the evaluator reads for one condition type. *)
Definition statusOf (lib : GoLib) (op : objxMap) (cond : string) : string :=
  String_ lib (Get (condition lib op cond) ["status"]).

Definition conditionsGood (lib : GoLib) (op : objxMap) : Prop :=
  statusOf lib op "Available" = "True" ∧ statusOf lib op "Degraded" = "False"
  ∧ statusOf lib op "Progressing" = "False".

(** The test cases of a report that carry the name derived from [opName]. *)
Definition operatorCases (tcs : list JUnitTestCase) (opName : string)
  : list JUnitTestCase :=
  filter (λ tc, tc_Name tc = tcNameOf opName) tcs.

(** The entry made for [opName]: its record in the listed operators, nil
    when there is none. *)
Definition itemOf (operatorsMap : gmap string objxMap) (opName : string)
  : finalOperator :=
  {| item_Name := opName; item_Op := operatorsMap !! opName |}.

(** The final list: the core operators in sorted order, then whatever else
    the cluster listed, in map order. *)
Definition finalOperatorsOf (ord : MapOrder) (sortedCoreOperators : list string)
    (operatorsMap : gmap string objxMap) : list finalOperator :=
  let '(finalOperators, operatorsMap) := consumeCore sortedCoreOperators operatorsMap in
  finalOperators ++ leftOperators ord operatorsMap.

(** What an entry without listed dependencies gets, whatever came before:
    its test case, and whether it joins the failure set. *)
Definition soloOutcome (lib : GoLib) (item : finalOperator) : JUnitTestCase * bool :=
  let opName := item_Name item in
  match item_Op item with
  | None => (tcSkipped (tcNameOf opName) (notFoundMsg lib opName), false)
  | Some op =>
      if decide (conditionsGood lib op) then (tcPassed (tcNameOf opName), false)
      else (tcFailed (tcNameOf opName)
              (conditionsMsg lib opName (statusOf lib op "Available")
                 (statusOf lib op "Degraded") (statusOf lib op "Progressing")), true)
  end.



(** The report and failure set of a run of the operator stage. *)
Definition stageResult (r : option (option (JUnitTestSuite * gset string)))
  : JUnitTestSuite * gset string :=
  default (emptySuite, ∅) (default None r).

(** The converse of [inv_zero]: an operator whose counter is zero has been
    queued or sorted. *)
Definition kahnComplete (operators : list string) (m : gmap string Z)
    (queue sorted : list string) : Prop :=
  ∀ op, op ∈ operators → degreeOf m op = 0%Z → op ∈ sorted ++ queue.

(** No operator is on a cycle of direct dependencies. *)
Definition acyclic (manualDeps : depMap) : Prop :=
  ∀ a, ¬ tc (dependsOn manualDeps) a a.

(** ** The machine and node checks, case by case *)

Definition machineRunning (lib : GoLib) (machine : Machine) : Prop :=
  strings_ToLower lib (machine_phase machine) = "running".

#[global] Instance machineRunning_dec (lib : GoLib) (machine : Machine) :
  Decision (machineRunning lib machine) :=
  decide (strings_ToLower lib (machine_phase machine) = "running").

Definition notRunningNote (lib : GoLib) (machine : Machine) : string :=
  "Machine " +:+ fmt_q lib (machine_Name machine)
    +:+ " is in " +:+ fmt_q lib (machine_phase machine) +:+ " state".

(** The machines that count as running: none when the list is nil. *)
Definition runningMachines (lib : GoLib) (machineList : option (list Machine))
  : list Machine :=
  filter (machineRunning lib) (default [] machineList).

Definition machinesCase (lib : GoLib) (machineList : option (list Machine))
  : JUnitTestCase :=
  match machineList with
  | Some (m :: ms) =>
      let bad := filter (λ machine, ¬ machineRunning lib machine) (m :: ms) in
      if decide (bad = []) then tcPassed machinesTcName
      else tcFailed machinesTcName
             ("Found " +:+ pretty (length bad) +:+ " out of "
                +:+ pretty (length (m :: ms)) +:+ " Machines not in Running state: "
                +:+ joinStrings (notRunningNote lib <$> bad) " ")
  | _ => tcSkipped machinesTcName noMachinesMsg
  end.

Definition unschedulable (nodes : list Node) : list Node :=
  filter (λ node, node_schedulable node = false) nodes.

Definition schedulable (nodes : list Node) : list Node :=
  filter (λ node, node_schedulable node = true) nodes.

Definition nodesCase (nodes : list Node) : JUnitTestCase :=
  if decide (unschedulable nodes = []) then tcPassed nodesTcName
  else tcFailed nodesTcName
         ("Found " +:+ pretty (length (unschedulable nodes)) +:+ " out of "
            +:+ pretty (length nodes) +:+ " Nodes not Ready or unscheduable: "
            +:+ joinStrings (node_Name <$> unschedulable nodes) " ").

(** ** Counters of a report *)

Definition failedCases (tcs : list JUnitTestCase) : list JUnitTestCase :=
  filter (λ tc, is_Some (tc_FailureOutput tc)) tcs.

Definition skippedCases (tcs : list JUnitTestCase) : list JUnitTestCase :=
  filter (λ tc, is_Some (tc_SkipMessage tc)) tcs.

(** The counters of failed and skipped cases tell what the list holds, and
    no case is both. *)
Definition countersAgree (suite : JUnitTestSuite) : Prop :=
  NumFailed suite = uint_of_len (failedCases (TestCases suite)) ∧
  NumSkipped suite = uint_of_len (skippedCases (TestCases suite)) ∧
  Forall (λ tc, tc_FailureOutput tc = None ∨ tc_SkipMessage tc = None) (TestCases suite).

(** [suite'] comes from [suite] by calls of [tcAppend] only. *)
Inductive grownFrom (suite : JUnitTestSuite) : JUnitTestSuite → Prop :=
| grown_same : grownFrom suite suite
| grown_append suite' name failureMsg skipMsg :
    grownFrom suite suite' →
    grownFrom suite (tcAppend suite' name failureMsg skipMsg).

(** ** Conditions and listed operators *)

(** The type and the status of a condition record, as the program reads
    them. *)
Definition conditionType (lib : GoLib) (obj : objxMap) : string :=
  String_ lib (Get obj ["type"]).
Definition conditionStatus (lib : GoLib) (obj : objxMap) : string :=
  String_ lib (Get obj ["status"]).

(** The condition records of an object, as [condition] walks them. *)
Definition conditionsOf (cv : objxMap) : list objxMap :=
  objects (Get cv ["status"; "conditions"]).

(** The statuses a stable cluster version shows. *)
Definition stableStatuses : list (string * string) :=
  [("Available", "True"); ("Failing", "False"); ("Progressing", "False")].

(** The name under which a listed item is filed. *)
Definition operatorName (lib : GoLib) (item : objxMap) : string :=
  String_ lib (Get item ["metadata"; "name"]).

Definition listedItems (clusterOperatorsObj : objxMap) : list objxMap :=
  objects (Get clusterOperatorsObj ["items"]).

(** [obj] is the first of [objs] whose type is [c]. *)
Definition firstMatch (lib : GoLib) (c : string) (objs : list objxMap)
    (obj : objxMap) : Prop :=
  ∃ pre post,
    objs = pre ++ obj :: post ∧
    (∀ o, o ∈ pre → conditionType lib o ≠ c) ∧
    conditionType lib obj = c.

(** What a run that reached its end left behind. *)
Definition runResult (r : option (option RunEffects)) : RunEffects :=
  match r with
  | Some (Some effects) => effects
  | _ => {| reported := emptySuite; writtenTo := None |}
  end.

(** The cases the machine and node checks put at the head of a report. *)
Definition consistencyCases (lib : GoLib) (cluster : ClusterData) : list JUnitTestCase :=
  TestCases
    (checkMachineNodeConsistency lib (machineList cluster) (machineErr cluster)
       (nodeItems cluster) (nodeErr cluster) emptySuite).

(** ** Proof steps *)

(** Case analysis on the [decide] in the goal whose proposition matches. *)
Tactic Notation "case_dec" open_constr(pat) "as" simple_intropattern(ipat) :=
  match goal with
  | |- context [@decide ?P ?d] => unify P pat; destruct (@decide P d) as ipat
  end.

(** Decides a closed, decidable statement by evaluation. *)
Ltac by_compute :=
  match goal with
  | |- ?P => apply (@bool_decide_unpack P _); vm_compute; exact I
  end.

(** * Sample inputs *)

Definition dquote : string := String "034"%char EmptyString.

(** A library instance for the examples: [%q] as plain double quotes (what
    Go prints for names without quotes, backslashes or control
    characters), phases taken as already lower-case, and paths joined by a
    slash. *)
Definition sampleLib : GoLib :=
  {| fmt_q := λ s, dquote +:+ s +:+ dquote;
     fmt_sharp_v := λ v, match v with
                         | VSlice _ => "[]interface {}{...}"
                         | _ => "map[string]interface {}{...}"
                         end;
     strings_ToLower := λ s, s;
     filepath_Join := λ dir name, dir +:+ "/" +:+ name |}.

Program Definition elementsOrder : MapOrder :=
  {| rangeKeys := elements |}.
Next Obligation. done. Qed.

Program Definition reverseOrder : MapOrder :=
  {| rangeKeys := λ X, reverse (elements X) |}.
Next Obligation. intros X. apply reverse_Permutation. Qed.

Definition cond (type status : string) : value :=
  VMap [("type", VString type); ("status", VString status)].

Definition clusterOperator (name available degraded progressing : string) : value :=
  VMap [ ("metadata", VMap [("name", VString name)]);
         ("status", VMap [("conditions",
            VSlice [ cond "Available" available; cond "Degraded" degraded;
                     cond "Progressing" progressing ])]) ].

Definition healthy (name : string) : value := clusterOperator name "True" "False" "False".
Definition degradedOp (name : string) : value := clusterOperator name "True" "True" "False".

Definition operatorList (items : list value) : objxMap := [("items", VSlice items)].

Definition chainDeps : depMap :=
  list_to_map [("A", []); ("B", ["A"]); ("C", ["B"])].

Definition cyclicDeps : depMap :=
  list_to_map [("A", ["B"]); ("B", ["A"])].

(** The end-to-end scenario of the design document. *)
Definition scenarioDeps : depMap :=
  list_to_map [ ("etcd", []); ("network", ["etcd"]);
                ("kube-apiserver", ["etcd"; "network"]) ].
Definition scenarioCluster : objxMap :=
  operatorList [degradedOp "etcd"; healthy "network"; healthy "kube-apiserver";
                healthy "foo"].

(** A dependency map over which a slice repeating "A" is sequenced. *)
Definition repeatedDeps : depMap :=
  list_to_map [("B", ["A"; "C"]); ("C", ["A"; "D"])].

Definition chainCluster : objxMap :=
  operatorList [degradedOp "A"; healthy "B"; healthy "C"].
Definition chainClusterWithoutB : objxMap :=
  operatorList [degradedOp "A"; healthy "C"].
Definition extraCluster : objxMap :=
  operatorList [healthy "A"; degradedOp "foo"].
Definition degradedFoo : objxMap :=
  match degradedOp "foo" with VMap m => m | _ => [] end.

Definition tableExpanded : depMap :=
  default ∅ (expandDependencies elementsOrder operatorDependencies).
Definition chainExpanded : depMap :=
  default ∅ (expandDependencies elementsOrder chainDeps).
Definition cyclicExpanded : depMap :=
  default ∅ (expandDependencies elementsOrder cyclicDeps).

Definition sampleStart : Time :=
  {| t_year := 2025; t_month := 3; t_day := 7;
     t_hour := 9; t_minute := 5; t_second := 0 |}.
Definition sampleData : ClusterData :=
  {| machineList := None; machineErr := Some "connection refused";
     nodeItems := []; nodeErr := None;
     clusterOperatorsObj := chainCluster; clusterOperatorsErr := None |}.

Definition chainRun : JUnitTestSuite * gset string :=
  stageResult (operatorStage sampleLib elementsOrder chainDeps chainCluster emptySuite).
Definition chainRunWithoutB : JUnitTestSuite * gset string :=
  stageResult
    (operatorStage sampleLib elementsOrder chainDeps chainClusterWithoutB emptySuite).
Definition extraRun : JUnitTestSuite * gset string :=
  stageResult (operatorStage sampleLib elementsOrder chainDeps extraCluster emptySuite).


Definition sampleMachines : list Machine :=
  [ {| machine_Name := "m0"; machine_phase := "running" |};
    {| machine_Name := "m1"; machine_phase := "Provisioning" |} ].

Definition sampleNodes : list Node :=
  [ {| node_Name := "n0"; node_schedulable := true |};
    {| node_Name := "n1"; node_schedulable := false |} ].

Definition sampleVersion : objxMap :=
  [ ("status", VMap [("conditions",
       VSlice [ VInt 7; cond "Available" "True"; cond "Failing" "False";
                cond "Progressing" "False"; cond "Available" "False" ])]) ].

(** The chain with a healthy head and a degraded middle. *)
Definition healthyHeadCluster : objxMap :=
  operatorList [healthy "A"; degradedOp "B"; healthy "C"].
Definition degradedB : objxMap :=
  match degradedOp "B" with VMap m => m | _ => [] end.
Definition healthyHeadRun : JUnitTestSuite * gset string :=
  stageResult
    (operatorStage sampleLib elementsOrder chainDeps healthyHeadCluster emptySuite).

(** An operator whose statuses are no strings: two bools and a number. *)
Definition unquotedStatuses : objxMap :=
  [ ("metadata", VMap [("name", VString "x")]);
    ("status", VMap [("conditions",
       VSlice [ VMap [("type", VString "Available"); ("status", VBool true)];
                VMap [("type", VString "Degraded"); ("status", VBool false)];
                VMap [("type", VString "Progressing"); ("status", VInt 0)] ])]) ].

(** Conditions whose first record has a bool for its type. *)
Definition boolTypedConditions : objxMap :=
  [ ("status", VMap [("conditions",
       VSlice [ VMap [("type", VBool true); ("status", VString "S1")];
                VMap [("type", VString "true"); ("status", VString "S2")] ])]) ].

(** Two listed items whose names are numbers, and one without a name. *)
Definition numberedCluster : objxMap :=
  operatorList [ VMap [("metadata", VMap [("name", VInt 1)])];
                 VMap [("metadata", VMap [("name", VInt 2)])];
                 VMap [("metadata", VMap [("name", VNil)])] ].

Definition sampleOptions : Options := {| JUnitDir := "/tmp/junit" |}.

Definition sampleEffects : RunEffects :=
  runResult (Run sampleLib elementsOrder sampleOptions chainDeps sampleStart sampleData).

(** * Properties *)

(** ** Map ranges, sorting and slices *)

Lemma elem_of_rangeKeys (ord : MapOrder) (X : gset string) (x : string) :
  x ∈ rangeKeys ord X ↔ x ∈ X.
Proof. by rewrite (rangeKeys_perm ord X), elem_of_elements. Qed.

Lemma NoDup_rangeKeys (ord : MapOrder) (X : gset string) : NoDup (rangeKeys ord X).
Proof. rewrite (rangeKeys_perm ord X). apply NoDup_elements. Qed.

Lemma sortStrings_perm (l : list string) : sortStrings l ≡ₚ l.
Proof. apply merge_sort_Permutation. Qed.

Lemma elem_of_sortStrings (l : list string) (x : string) : x ∈ sortStrings l ↔ x ∈ l.
Proof. by rewrite sortStrings_perm. Qed.

Lemma sortStrings_sorted (l : list string) : StronglySorted String.le (sortStrings l).
Proof. apply (StronglySorted_merge_sort String.le). Qed.

Lemma NoDup_sortStrings (l : list string) : NoDup l → NoDup (sortStrings l).
Proof. by rewrite sortStrings_perm. Qed.

(** Sorting forgets the order the keys were visited in. *)
Lemma sortStrings_rangeKeys (ord1 ord2 : MapOrder) (X : gset string) :
  sortStrings (rangeKeys ord1 X) = sortStrings (rangeKeys ord2 X).
Proof.
  apply (Sorted_unique String.le).
  - apply StronglySorted_Sorted, sortStrings_sorted.
  - apply StronglySorted_Sorted, sortStrings_sorted.
  - by rewrite !sortStrings_perm, !rangeKeys_perm.
Qed.

Lemma stringInSlice_true (str : string) (slice : list string) :
  stringInSlice str slice = true ↔ str ∈ slice.
Proof.
  induction slice as [|s rest IH]; simpl.
  - split; [done | by intros ?%elem_of_nil].
  - rewrite elem_of_cons. case_decide as Heq.
    + subst. tauto.
    + rewrite IH. split; [tauto|]. intros [Hs|Hin]; [congruence|done].
Qed.

Lemma stringInSlice_false (str : string) (slice : list string) :
  stringInSlice str slice = false ↔ str ∉ slice.
Proof.
  rewrite <- stringInSlice_true. destruct (stringInSlice str slice); naive_solver.
Qed.

(** ** The expander *)


Section dfs_facts.
Variable deps : depMap.

Lemma dfs_loop_post (fuel : nat) :
  (∀ current v r v' r',
     dfs fuel current deps (v, r) = Some (v', r') → dfsPost deps current v r v' r') →
  ∀ ds v r v' r',
    forEachM (dfsBody deps fuel) ds (v, r) = Some (v', r') →
    v ⊆ v' ∧ r ⊆ r' ∧
    (∀ d, d ∈ ds → d ∈ r' ∧ d ∈ v') ∧
    (∀ x d, x ∈ v' → x ∉ v → dependsOn deps x d → d ∈ r' ∧ d ∈ v') ∧
    (∀ d, d ∈ r' → d ∉ r → d ∈ ds ∨ ∃ e, e ∈ ds ∧ tc (dependsOn deps) e d).
Proof.
  intros IH ds. induction ds as [|dep ds IHds]; intros v r v' r' Hrun; simpl in Hrun.
  - simplify_eq. split; [done|]. split; [done|]. split; [|split].
    + by intros d ?%elem_of_nil.
    + by intros x d ? ?.
    + by intros d ? ?.
  - destruct (dfs fuel dep deps (v, {[dep]} ∪ r)) as [[v1 r1]|] eqn:Hd; [|done].
    apply IH in Hd as (Hv1 & Hr1 & Hdep & Hclosed1 & Hsound1).
    apply IHds in Hrun as (Hv2 & Hr2 & Hall & Hclosed2 & Hsound2).
    split; [set_solver|]. split; [set_solver|]. split; [|split].
    + intros d [->|Hin]%elem_of_cons; [|by apply Hall].
      split; [set_solver|set_solver].
    + intros x d Hx Hnx Hxd.
      destruct (decide (x ∈ v1)) as [Hx1|Hx1].
      * destruct (Hclosed1 x d Hx1 Hnx Hxd). split; set_solver.
      * by apply (Hclosed2 x d).
    + intros d Hin Hnd.
      destruct (decide (d ∈ r1)) as [Hd1|Hd1].
      * destruct (decide (d = dep)) as [->|Hne]; [left; set_solver|].
        right. exists dep. split; [set_solver|]. apply Hsound1; set_solver.
      * destruct (Hsound2 d Hin Hd1) as [?|(e & ? & ?)]; [left; set_solver|].
        right. exists e. split; [set_solver|done].
Qed.

Lemma dfs_post (fuel : nat) :
  ∀ current v r v' r',
    dfs fuel current deps (v, r) = Some (v', r') → dfsPost deps current v r v' r'.
Proof.
  induction fuel as [|fuel IH]; intros current v r v' r' Hrun; [done|].
  simpl in Hrun. case_decide as Hvis.
  { simplify_eq. unfold dfsPost. split; [done|]. split; [done|]. split; [done|].
    split; [by intros x d ? ?|by intros d ? ?]. }
  destruct (deps !! current) as [directDeps|] eqn:Hcur.
  - apply (dfs_loop_post fuel IH) in Hrun as (Hv & Hr & Hall & Hclosed & Hsound).
    unfold dfsPost. split; [set_solver|]. split; [done|]. split; [set_solver|].
    split.
    + intros x d Hx Hnx Hxd.
      destruct (decide (x = current)) as [->|Hne].
      * destruct Hxd as (ds & Hds & Hd). simplify_eq. by apply Hall.
      * apply (Hclosed x d); [done|set_solver|done].
    + intros d Hd Hnd. destruct (Hsound d Hd Hnd) as [Hin|(e & Hin & Hreach)].
      * apply tc_once. by exists directDeps.
      * eapply tc_l; [|done]. by exists directDeps.
  - simplify_eq. unfold dfsPost. split; [set_solver|]. split; [done|].
    split; [set_solver|]. split.
    + intros x d Hx Hnx (ds & Hds & Hd).
      assert (x = current) as -> by set_solver. congruence.
    + done.
Qed.

(** Enough fuel: one unit per key of the map not yet visited. *)
Lemma dfs_enough (fuel : nat) :
  ∀ current v r, size (dom deps ∖ v) < fuel → is_Some (dfs fuel current deps (v, r)).
Proof.
  induction fuel as [|fuel IH]; intros current v r Hsize; [lia|].
  simpl. case_decide as Hvis; [done|].
  destruct (deps !! current) as [directDeps|] eqn:Hcur; [|done].
  assert (size (dom deps ∖ ({[current]} ∪ v)) < fuel) as Hlt.
  { assert (dom deps ∖ ({[current]} ∪ v) ⊂ dom deps ∖ v) as Hsub.
    { split; [set_solver|]. intros Hsup.
      assert (current ∈ dom deps ∖ v) as Hin.
      { apply elem_of_difference. split; [|done]. by apply elem_of_dom. }
      apply Hsup in Hin. set_solver. }
    apply subset_size in Hsub. lia. }
  clear Hsize Hcur. revert Hlt. generalize ({[current]} ∪ v) as v0. generalize r as r0.
  induction directDeps as [|dep ds IHds]; intros r0 v0 Hlt; simpl; [by eexists|].
  destruct (IH dep v0 ({[dep]} ∪ r0) Hlt) as [[v1 r1] Hd]. rewrite Hd.
  apply IHds. apply dfs_post in Hd as (Hv1 & _).
  assert (size (dom deps ∖ v1) ≤ size (dom deps ∖ v0)); [|lia].
  apply subseteq_size. set_solver.
Qed.
End dfs_facts.

Lemma getAllUpstreamDependencies_total (ord : MapOrder) (op : string) (deps : depMap) :
  is_Some (getAllUpstreamDependencies ord op deps).
Proof.
  unfold getAllUpstreamDependencies.
  destruct (dfs_enough deps (dfsFuel deps) op ∅ ∅) as [[v r] Hrun].
  - unfold dfsFuel. assert (size (dom deps ∖ ∅) ≤ size (dom deps)); [|lia].
    apply subseteq_size. set_solver.
  - rewrite Hrun. by eexists.
Qed.

(** The traversal collects exactly what is reachable in one step or more. *)
Lemma elem_of_getAllUpstreamDependencies (ord : MapOrder) (op : string)
    (deps : depMap) (l : list string) (x : string) :
  getAllUpstreamDependencies ord op deps = Some l →
  x ∈ l ↔ tc (dependsOn deps) op x.
Proof.
  unfold getAllUpstreamDependencies.
  destruct (dfs (dfsFuel deps) op deps (∅, ∅)) as [[v r]|] eqn:Hrun; [|done].
  intros [= <-]. rewrite elem_of_sortStrings, elem_of_rangeKeys.
  apply dfs_post in Hrun as (_ & _ & Hop & Hclosed & Hsound). split.
  - intros Hx. apply Hsound; [done|set_solver].
  - intros Hreach.
    assert (∀ a b, tc (dependsOn deps) a b → a ∈ v → b ∈ r ∧ b ∈ v) as Hcl.
    { clear -Hclosed. induction 1 as [a b Hab|a b c Hab _ IH]; intros Ha.
      - apply (Hclosed a b); [done|set_solver|done].
      - apply IH. apply (Hclosed a b); [done|set_solver|done]. }
    by apply (Hcl op x).
Qed.

Lemma getAllUpstreamDependencies_sorted (ord : MapOrder) (op : string)
    (deps : depMap) (l : list string) :
  getAllUpstreamDependencies ord op deps = Some l →
  StronglySorted String.le l ∧ NoDup l.
Proof.
  unfold getAllUpstreamDependencies.
  destruct (dfs (dfsFuel deps) op deps (∅, ∅)) as [[v r]|]; [|done].
  intros [= <-]. split; [apply sortStrings_sorted|].
  apply NoDup_sortStrings, NoDup_rangeKeys.
Qed.

Lemma getAllUpstreamDependencies_order (ord1 ord2 : MapOrder) (op : string)
    (deps : depMap) :
  getAllUpstreamDependencies ord1 op deps = getAllUpstreamDependencies ord2 op deps.
Proof.
  unfold getAllUpstreamDependencies.
  destruct (dfs (dfsFuel deps) op deps (∅, ∅)) as [[v r]|]; [|done].
  f_equal. apply sortStrings_rangeKeys.
Qed.

Lemma elem_of_foldl_add (l : list string) (s0 : gset string) (x : string) :
  x ∈ foldl (λ coreSet op, {[op]} ∪ coreSet) s0 l ↔ x ∈ l ∨ x ∈ s0.
Proof.
  revert s0. induction l as [|a l IH]; intros s0; simpl.
  - rewrite elem_of_nil. tauto.
  - rewrite IH, elem_of_cons. set_solver.
Qed.

Lemma elem_of_foldl_add_all (f : string → list string) (l : list string)
    (s0 : gset string) (x : string) :
  x ∈ foldl (λ coreSet op, foldl (λ coreSet dep, {[dep]} ∪ coreSet) coreSet (f op)) s0 l
  ↔ (∃ op, op ∈ l ∧ x ∈ f op) ∨ x ∈ s0.
Proof.
  revert s0. induction l as [|a l IH]; intros s0; simpl.
  - split; [tauto|]. intros [(op & Hop & _)|?]; [by apply elem_of_nil in Hop|done].
  - rewrite IH, elem_of_foldl_add. split.
    + intros [(op & Hop & Hx)|[Hx|Hx]].
      * left. exists op. split; [by apply elem_of_cons; right|done].
      * left. exists a. split; [by apply elem_of_cons; left|done].
      * by right.
    + intros [(op & [->|Hop]%elem_of_cons & Hx)|Hx].
      * right. by left.
      * left. by exists op.
      * right. by right.
Qed.

(** [coreSet]: the keys of the map and everything listed as a dependency. *)
Lemma elem_of_coreSetOf (ord : MapOrder) (manualDeps : depMap) (x : string) :
  x ∈ coreSetOf ord manualDeps ↔
  x ∈ dom manualDeps ∨ ∃ op, dependsOn manualDeps op x.
Proof.
  unfold coreSetOf. rewrite elem_of_foldl_add_all, elem_of_foldl_add, elem_of_rangeKeys.
  split.
  - intros [(op & Hop & Hx)|[Hx|Hx]]; [|by left|set_solver].
    right. exists op. destruct (manualDeps !! op) as [ds|] eqn:Hds; simpl in Hx.
    + by exists ds.
    + by apply elem_of_nil in Hx.
  - intros [Hx|(op & ds & Hds & Hx)]; [right; by left|].
    left. exists op. rewrite elem_of_rangeKeys, Hds. split; [|done].
    apply elem_of_dom. by eexists.
Qed.

Lemma coreSetOf_order (ord1 ord2 : MapOrder) (manualDeps : depMap) :
  coreSetOf ord1 manualDeps = coreSetOf ord2 manualDeps.
Proof. apply set_eq. intros x. by rewrite !elem_of_coreSetOf. Qed.


Lemma forEachM_insert {V : Type} (g : string → V) (l : list string) (m0 : gmap string V) :
  ∃ m, forEachM (λ op finalDeps, Some (<[op := g op]> finalDeps)) l m0 = Some m ∧
       ∀ op, m !! op = if decide (op ∈ l) then Some (g op) else m0 !! op.
Proof.
  revert m0. induction l as [|a l IH]; intros m0; simpl.
  - exists m0. split; [done|]. intros op.
    destruct (decide (op ∈ [])) as [Hin|Hin]; [|done].
    by apply elem_of_nil in Hin.
  - destruct (IH (<[a := g a]> m0)) as (m & Hm & Hlook). exists m. split; [done|].
    intros op. rewrite Hlook. destruct (decide (op ∈ l)) as [Hin|Hnin].
    + destruct (decide (op ∈ a :: l)) as [Hin'|Hin']; [done|].
      contradict Hin'. apply elem_of_cons. by right.
    + destruct (decide (op = a)) as [->|Hne].
      * rewrite lookup_insert_eq. destruct (decide (a ∈ a :: l)) as [Hin'|Hin']; [done|].
        contradict Hin'. apply elem_of_cons. by left.
      * rewrite lookup_insert_ne by done.
        destruct (decide (op ∈ a :: l)) as [Hin'|Hin']; [|done].
        apply elem_of_cons in Hin'. tauto.
Qed.

Lemma forEachM_ext {A S : Type} (f g : A → S → option S) (l : list A) (s : S) :
  (∀ x s, f x s = g x s) → forEachM f l s = forEachM g l s.
Proof.
  intros Hfg. revert s. induction l as [|a l IH]; intros s; simpl; [done|].
  rewrite Hfg. destruct (g a s); [apply IH|done].
Qed.

(** The expander always finishes, and files one entry per member of the
    core set. *)
Lemma expandDependencies_lookup (ord : MapOrder) (manualDeps : depMap) :
  ∃ finalDeps,
    expandDependencies ord manualDeps = Some finalDeps ∧
    ∀ op, finalDeps !! op =
          if decide (op ∈ coreSetOf ord manualDeps)
          then Some (expandedOf ord manualDeps op) else None.
Proof.
  destruct (forEachM_insert (expandedOf ord manualDeps)
              (rangeKeys ord (coreSetOf ord manualDeps)) ∅) as (m & Hm & Hlook).
  exists m. split.
  - rewrite <- Hm. unfold expandDependencies. apply forEachM_ext.
    intros op finalDeps. unfold expandedOf.
    destruct (manualDeps !! op) as [directDeps|]; [|done].
    by destruct (getAllUpstreamDependencies_total ord op manualDeps) as [allDeps ->].
  - intros op. rewrite Hlook, lookup_empty.
    destruct (decide (op ∈ coreSetOf ord manualDeps)) as [Hin|Hnin].
    + destruct (decide (op ∈ rangeKeys ord (coreSetOf ord manualDeps))) as [Hin'|Hin'];
        [done|]. contradict Hin'. by apply elem_of_rangeKeys.
    + destruct (decide (op ∈ rangeKeys ord (coreSetOf ord manualDeps))) as [Hin'|Hin'];
        [|done]. by apply elem_of_rangeKeys in Hin'.
Qed.

(** ** The sequencer *)


Lemma filter_ext_elem_of {A} (P Q : A → Prop) `{!∀ x, Decision (P x), !∀ x, Decision (Q x)}
    (l : list A) :
  (∀ x, x ∈ l → P x ↔ Q x) → filter P l = filter Q l.
Proof.
  induction l as [|a l IH]; intros HPQ; [done|].
  assert (filter P l = filter Q l) as Hl.
  { apply IH. intros x Hx. apply HPQ. apply elem_of_cons. by right. }
  assert (P a ↔ Q a) as Ha by (apply HPQ, elem_of_cons; by left).
  destruct (decide (P a)).
  - rewrite !filter_cons_True by tauto. by rewrite Hl.
  - rewrite !filter_cons_False by tauto. by rewrite Hl.
Qed.

Lemma degreeOf_insert (m : gmap string Z) (op k : string) (d : Z) :
  degreeOf (<[op := d]> m) k = if decide (k = op) then d else degreeOf m k.
Proof.
  unfold degreeOf. destruct (decide (k = op)) as [->|Hne].
  - by rewrite lookup_insert_eq.
  - by rewrite lookup_insert_ne.
Qed.

Lemma degreeOf_initInDegree (operators : list string) (k : string) :
  degreeOf (initInDegree operators) k = 0%Z.
Proof.
  unfold initInDegree.
  assert (∀ m : gmap string Z, degreeOf m k = 0%Z →
            degreeOf (foldl (λ inDegree op, <[op := 0%Z]> inDegree) m operators) k = 0%Z)
    as Hgen.
  { induction operators as [|a l IH]; intros m Hm; simpl; [done|].
    apply IH. rewrite degreeOf_insert. by case_decide. }
  by apply Hgen.
Qed.

Section kahn.
Variable operators : list string.
Variable dependencies : depMap.

Lemma count_inner_fold (op k : string) (ds : list string) (m : gmap string Z) :
  degreeOf
    (foldl (λ inDegree dep,
              if stringInSlice dep operators
              then <[op := (degreeOf inDegree op + 1)%Z]> inDegree
              else inDegree) m ds) k
  = if decide (k = op)
    then (degreeOf m k + Z.of_nat (length (filter (λ dep, dep ∈ operators) ds)))%Z
    else degreeOf m k.
Proof.
  revert m. induction ds as [|dep ds IH]; intros m; simpl.
  - case_decide; [lia|done].
  - rewrite IH. destruct (stringInSlice dep operators) eqn:Hin.
    + apply stringInSlice_true in Hin. rewrite filter_cons_True by done.
      rewrite degreeOf_insert. case_decide; [subst; simpl; lia|done].
    + apply stringInSlice_false in Hin. by rewrite filter_cons_False by done.
Qed.

Lemma count_outer_fold (l : list string) (m : gmap string Z) (k : string) :
  NoDup l →
  degreeOf
    (foldl (λ inDegree op,
              foldl (λ inDegree dep,
                       if stringInSlice dep operators
                       then <[op := (degreeOf inDegree op + 1)%Z]> inDegree
                       else inDegree)
                inDegree (depsOf dependencies op)) m l) k
  = if decide (k ∈ l)
    then (degreeOf m k + Z.of_nat (length (innerDeps operators dependencies k)))%Z
    else degreeOf m k.
Proof.
  revert m. induction l as [|a l IH]; intros m Hnd; simpl.
  - destruct (decide (k ∈ [])) as [Hin|Hin]; [by apply elem_of_nil in Hin|done].
  - apply NoDup_cons in Hnd as [Ha Hnd]. rewrite IH by done.
    rewrite count_inner_fold.
    destruct (decide (k = a)) as [->|Hne].
    + destruct (decide (a ∈ l)) as [?|_]; [done|].
      destruct (decide (a ∈ a :: l)) as [_|Hin]; [done|].
      contradict Hin. apply elem_of_cons. by left.
    + destruct (decide (k ∈ l)) as [Hin|Hin].
      * destruct (decide (k ∈ a :: l)) as [_|Hin']; [done|].
        contradict Hin'. apply elem_of_cons. by right.
      * destruct (decide (k ∈ a :: l)) as [Hin'|_]; [|done].
        apply elem_of_cons in Hin'. tauto.
Qed.

Lemma degreeOf_countInDegree (k : string) :
  NoDup operators →
  k ∈ operators →
  degreeOf (countInDegree operators dependencies (initInDegree operators)) k
  = Z.of_nat (length (innerDeps operators dependencies k)).
Proof.
  intros Hnd Hk. unfold countInDegree. rewrite count_outer_fold by done.
  rewrite decide_True by done. rewrite degreeOf_initInDegree. lia.
Qed.

(** The inner loop in closed form, for a slice without repetitions. *)
Lemma release_fold (node : string) (l : list string) :
  NoDup l →
  ∀ (m : gmap string Z) (q : list string),
  ∃ m',
    foldl (releaseStep node dependencies) (m, q) l
    = (m', q ++ filter (λ op, node ∈ depsOf dependencies op ∧ degreeOf m op = 1%Z) l) ∧
    ∀ k, degreeOf m' k =
         if decide (k ∈ l ∧ node ∈ depsOf dependencies k)
         then (degreeOf m k - 1)%Z else degreeOf m k.
Proof.
  induction l as [|a l IH]; intros Hnd m q; cbn [foldl].
  - exists m. rewrite filter_nil, (right_id_L [] (++)). split; [done|].
    intros k. case_dec (k ∈ [] ∧ _) as [[Hin _]|_];
      [by apply elem_of_nil in Hin|done].
  - apply NoDup_cons in Hnd as [Ha Hnd]. unfold releaseStep at 2.
    destruct (stringInSlice node (depsOf dependencies a)) eqn:Hin.
    + apply stringInSlice_true in Hin.
      set (d := (degreeOf m a - 1)%Z).
      assert (∀ x, x ∈ l →
                (node ∈ depsOf dependencies x ∧ degreeOf (<[a := d]> m) x = 1%Z) ↔
                (node ∈ depsOf dependencies x ∧ degreeOf m x = 1%Z)) as Hsame.
      { intros x Hx. rewrite degreeOf_insert.
        destruct (decide (x = a)) as [->|_]; [done|tauto]. }
      assert (∀ m' : gmap string Z,
               (∀ k, degreeOf m' k =
                     if decide (k ∈ l ∧ node ∈ depsOf dependencies k)
                     then (degreeOf (<[a := d]> m) k - 1)%Z
                     else degreeOf (<[a := d]> m) k) →
               ∀ k, degreeOf m' k =
                    if decide (k ∈ a :: l ∧ node ∈ depsOf dependencies k)
                    then (degreeOf m k - 1)%Z else degreeOf m k) as Hdeg.
      { intros m' Hm' k. rewrite Hm', degreeOf_insert.
        destruct (decide (k = a)) as [->|Hne].
        - case_dec (a ∈ l ∧ _) as [[? _]|_]; [done|].
          case_dec (a ∈ a :: l ∧ _) as [_|Hn]; [done|].
          contradict Hn. split; [apply elem_of_cons; by left|done].
        - case_dec (k ∈ l ∧ _) as [[Hkl Hk]|Hn].
          + case_dec (k ∈ a :: l ∧ _) as [_|Hn]; [done|].
            contradict Hn. split; [apply elem_of_cons; by right|done].
          + case_dec (k ∈ a :: l ∧ _) as [[Hkl Hk]|_]; [|done].
            apply elem_of_cons in Hkl as [?|Hkl]; [done|]. tauto. }
      destruct (decide (d = 0%Z)) as [Hd|Hd].
      * destruct (IH Hnd (<[a := d]> m) (q ++ [a])) as (m' & Hrun & Hm').
        exists m'. split; [|by apply Hdeg].
        rewrite Hrun. f_equal. rewrite filter_cons_True by (split; [done|lia]).
        rewrite <- (assoc_L (++)). simpl. f_equal. f_equal.
        by apply filter_ext_elem_of.
      * destruct (IH Hnd (<[a := d]> m) q) as (m' & Hrun & Hm').
        exists m'. split; [|by apply Hdeg].
        rewrite Hrun. f_equal. rewrite filter_cons_False by (intros [_ ?]; lia).
        f_equal. by apply filter_ext_elem_of.
    + apply stringInSlice_false in Hin.
      destruct (IH Hnd m q) as (m' & Hrun & Hm').
      exists m'. split.
      * rewrite Hrun. f_equal. by rewrite filter_cons_False by tauto.
      * intros k. rewrite Hm'.
        case_dec (k ∈ l ∧ _) as [[Hkl Hk]|Hn].
        -- case_dec (k ∈ a :: l ∧ _) as [_|Hn]; [done|].
           contradict Hn. split; [apply elem_of_cons; by right|done].
        -- case_dec (k ∈ a :: l ∧ _) as [[Hkl Hk]|_]; [|done].
           apply elem_of_cons in Hkl as [->|Hkl]; [done|]. tauto.
Qed.
End kahn.


Section kahn_order.
Variable operators : list string.
Variable dependencies : depMap.
Hypothesis operators_NoDup : NoDup operators.

(** A node that reached degree zero has all its dependencies sorted. *)
Lemma inv_inner_sorted m queue sorted a b :
  kahnInv operators dependencies m queue sorted →
  a ∈ sorted ++ queue →
  b ∈ innerDeps operators dependencies a →
  b ∈ sorted.
Proof.
  intros [Hnd Hops Hdeg Hzero _] Ha Hb.
  pose proof (Hzero a Ha) as Hz. rewrite (Hdeg a (Hops a Ha)) in Hz.
  assert (released dependencies a sorted ≡ₚ innerDeps operators dependencies a) as Hperm.
  { apply submseteq_length_Permutation; [|lia].
    apply NoDup_submseteq.
    - apply NoDup_filter. by apply NoDup_app in Hnd as (? & _).
    - intros x [Hx Hxs]%list_elem_of_filter. apply list_elem_of_filter.
      split; [|done]. apply Hops, elem_of_app. by left. }
  rewrite <- Hperm in Hb. by apply list_elem_of_filter in Hb as [_ ?].
Qed.

Lemma inv_init :
  let inDegree := countInDegree operators dependencies (initInDegree operators) in
  kahnInv operators dependencies inDegree (seedQueue operators inDegree) [].
Proof.
  intros inDegree. split; rewrite ?app_nil_l.
  - by apply NoDup_filter.
  - by intros x [_ ?]%list_elem_of_filter.
  - intros op Hop. unfold inDegree. rewrite degreeOf_countInDegree by done.
    unfold released. rewrite filter_nil. simpl. lia.
  - by intros a [? _]%list_elem_of_filter.
  - intros i a b Hi. by rewrite lookup_nil in Hi.
Qed.

Lemma inv_step m node queue sorted m' queue' :
  kahnInv operators dependencies m (node :: queue) sorted →
  releaseNode node operators dependencies (m, queue) = (m', queue') →
  kahnInv operators dependencies m' queue' (sorted ++ [node]).
Proof.
  intros Hinv Hrel.
  pose proof (λ a b, inv_inner_sorted _ _ _ a b Hinv) as Hinner.
  destruct Hinv as [Hnd Hops Hdeg Hzero Hbefore].
  destruct (release_fold dependencies node operators operators_NoDup m queue)
    as (m1 & Hrun & Hm1).
  unfold releaseNode in Hrel. rewrite Hrun in Hrel. simplify_eq.
  set (fresh := filter (λ op, node ∈ depsOf dependencies op ∧ degreeOf m op = 1%Z)
                  operators).
  assert (node ∈ operators) as Hnode.
  { apply Hops. rewrite elem_of_app, elem_of_cons. tauto. }
  assert (node ∉ sorted) as Hnode_new.
  { apply NoDup_app in Hnd as (_ & Hdisj & _). intros Hin.
    apply (Hdisj node Hin). apply elem_of_cons. by left. }
  assert (∀ a, a ∈ sorted ++ node :: queue → node ∉ depsOf dependencies a) as Hnot.
  { intros a Ha Hdep. apply Hnode_new. apply (Hinner a node Ha).
    by apply list_elem_of_filter. }
  assert (∀ a, a ∈ fresh → a ∉ sorted ++ node :: queue) as Hfresh.
  { intros a [[_ Hone] _]%list_elem_of_filter Ha. apply Hzero in Ha. lia. }
  assert ((sorted ++ [node]) ++ queue ++ fresh = (sorted ++ node :: queue) ++ fresh)
    as Hshape by (by rewrite <- !(assoc_L (++))).
  split; rewrite ?Hshape.
  - apply NoDup_app. split; [done|]. split.
    + intros x Hx Hfr. by apply (Hfresh x).
    + by apply NoDup_filter.
  - intros x [Hx|Hx]%elem_of_app; [by apply Hops|].
    by apply list_elem_of_filter in Hx as [_ ?].
  - intros op Hop. rewrite Hm1, (Hdeg op Hop). unfold released.
    rewrite filter_app, length_app.
    destruct (decide (node ∈ depsOf dependencies op)) as [Hin|Hin].
    + rewrite decide_True by done. rewrite filter_cons_True by done. simpl. lia.
    + rewrite decide_False by tauto. rewrite filter_cons_False by done. simpl. lia.
  - intros a [Ha|Ha]%elem_of_app.
    + rewrite Hm1. rewrite decide_False; [by apply Hzero|].
      intros [_ Hdep]. by apply (Hnot a).
    + apply list_elem_of_filter in Ha as [[Hdep Hone] Ha].
      rewrite Hm1. rewrite decide_True by done. lia.
  - intros i a b [[Hi Ha]|[-> <-]]%lookup_snoc_Some Hb.
    + destruct (Hbefore i a b Ha Hb) as (j & Hj & Hjb).
      exists j. split; [done|]. rewrite lookup_app_l; [done|lia].
    + assert (b ∈ sorted) as Hbs.
      { apply (Hinner node b); [|done]. rewrite elem_of_app, elem_of_cons. tauto. }
      apply list_elem_of_lookup in Hbs as [j Hj].
      exists j. pose proof (lookup_lt_Some _ _ _ Hj).
      split; [done|]. by rewrite lookup_app_l.
Qed.

Lemma kahnLoop_inv fuel :
  ∀ m queue sorted result,
    kahnInv operators dependencies m queue sorted →
    kahnLoop fuel operators dependencies m queue sorted = Some result →
    ∃ m', kahnInv operators dependencies m' [] result.
Proof.
  induction fuel as [|fuel IH]; intros m queue sorted result Hinv Hrun.
  - destruct queue; simpl in Hrun; [|done]. simplify_eq. by exists m.
  - destruct queue as [|node queue]; simpl in Hrun.
    + simplify_eq. by exists m.
    + destruct (releaseNode node operators dependencies (m, queue))
        as [m' queue'] eqn:Hrel.
      eapply IH; [|done]. by eapply inv_step.
Qed.

(** A successful sort lists every operator once, dependencies first. *)
Lemma TopologicalSort_sorted sorted :
  TopologicalSort operators dependencies = Some (sorted, None) →
  sorted ≡ₚ operators ∧
  NoDup sorted ∧
  ∀ a b, a ∈ operators → b ∈ depsOf dependencies a → b ∈ operators →
         appearsBefore sorted b a.
Proof.
  unfold TopologicalSort. intros Hrun.
  destruct (kahnLoop _ _ _ _ _ _) as [result|] eqn:Hloop; [|done].
  destruct (decide (length result ≠ length operators)) as [|Hlen]; [done|].
  simplify_eq. apply dec_stable in Hlen.
  apply kahnLoop_inv in Hloop as (m' & Hinv); [|apply inv_init].
  destruct Hinv as [Hnd Hops _ _ Hbefore]. rewrite (right_id_L [] (++)) in Hnd, Hops.
  assert (sorted ≡ₚ operators) as Hperm.
  { apply submseteq_length_Permutation; [|lia]. by apply NoDup_submseteq. }
  split; [done|]. split; [done|].
  intros a b Ha Hb Hbo.
  rewrite <- Hperm in Ha. apply list_elem_of_lookup in Ha as [i Hi].
  destruct (Hbefore i a b Hi) as (j & Hj & Hjb).
  { by apply list_elem_of_filter. }
  by exists j, i.
Qed.
End kahn_order.

(** *** The main loop ends within its fuel *)


Lemma waiting_le_size (m : gmap string Z) : waiting m ≤ size m.
Proof. apply map_size_filter. Qed.

Lemma waiting_decrement (m : gmap string Z) (op : string) :
  let d := (degreeOf m op - 1)%Z in
  if decide (d = 0%Z) then S (waiting (<[op := d]> m)) = waiting m
  else waiting (<[op := d]> m) ≤ waiting m.
Proof.
  intros d. unfold waiting.
  destruct (decide (0 < d)%Z) as [Hpos|Hneg].
  - rewrite decide_False by lia.
    rewrite map_filter_insert_True by done.
    rewrite map_size_insert_Some; [done|].
    exists (d + 1)%Z. apply map_lookup_filter_Some. split; [|simpl; lia].
    unfold d, degreeOf in *. destruct (m !! op) as [z|]; simpl in *; [f_equal; lia|lia].
  - rewrite map_filter_insert_False by done. rewrite map_filter_delete.
    rewrite map_size_delete.
    destruct (decide (d = 0%Z)) as [Hz|Hnz].
    + assert (filter (λ kv : string * Z, (0 < kv.2)%Z) m !! op = Some 1%Z) as Hin.
      { apply map_lookup_filter_Some. split; [|simpl; lia].
        unfold d, degreeOf in *. destruct (m !! op) as [z|]; simpl in *; [f_equal; lia|lia]. }
      rewrite Hin.
      assert (size (filter (λ kv : string * Z, (0 < kv.2)%Z) m) ≠ 0); [|lia].
      intros Hsz. apply map_size_empty_iff in Hsz. rewrite Hsz in Hin.
      by rewrite lookup_empty in Hin.
    + destruct (filter _ m !! op); simpl; lia.
Qed.

Lemma releaseNode_measure (node : string) (dependencies : depMap) (l : list string) :
  ∀ m q m' q',
    foldl (releaseStep node dependencies) (m, q) l = (m', q') →
    waiting m' + length q' ≤ waiting m + length q.
Proof.
  induction l as [|a l IH]; intros m q m' q' Hrun; cbn [foldl] in Hrun.
  - simplify_eq. lia.
  - unfold releaseStep at 2 in Hrun.
    destruct (stringInSlice node (depsOf dependencies a)).
    + pose proof (waiting_decrement m a) as Hw. cbv zeta in Hw.
      destruct (decide ((degreeOf m a - 1)%Z = 0%Z)) as [Hz|Hnz].
      * apply IH in Hrun. rewrite length_app in Hrun. simpl in Hrun. lia.
      * apply IH in Hrun. lia.
    + by apply IH.
Qed.

Lemma kahnLoop_enough (operators : list string) (dependencies : depMap) (fuel : nat) :
  ∀ m queue sorted,
    waiting m + length queue ≤ fuel →
    is_Some (kahnLoop fuel operators dependencies m queue sorted).
Proof.
  induction fuel as [|fuel IH]; intros m queue sorted Hfuel.
  - destruct queue; simpl in *; [by eexists|lia].
  - destruct queue as [|node queue]; simpl; [by eexists|].
    destruct (releaseNode node operators dependencies (m, queue)) as [m' queue'] eqn:Hrel.
    apply IH. apply releaseNode_measure in Hrel. simpl in Hfuel. lia.
Qed.

(** The sequencer always returns. *)
Lemma TopologicalSort_total (operators : list string) (dependencies : depMap) :
  is_Some (TopologicalSort operators dependencies).
Proof.
  unfold TopologicalSort.
  set (inDegree := countInDegree operators dependencies (initInDegree operators)).
  destruct (kahnLoop_enough operators dependencies
              (size inDegree + length (seedQueue operators inDegree))
              inDegree (seedQueue operators inDegree) []) as [sorted Hrun].
  - pose proof (waiting_le_size inDegree). lia.
  - rewrite Hrun. case_decide; by eexists.
Qed.

(** It returns either an order with no error, or the cycle error with a
    nil order. *)
Lemma TopologicalSort_cases (operators : list string) (dependencies : depMap) :
  (∃ sorted, TopologicalSort operators dependencies = Some (sorted, None)) ∨
  TopologicalSort operators dependencies = Some ([], Some cycleError).
Proof.
  destruct (TopologicalSort_total operators dependencies) as [r Hr].
  revert Hr. unfold TopologicalSort.
  destruct (kahnLoop _ _ _ _ _ _) as [sorted|]; [|done].
  case_decide; intros Hr; [by right|left; by exists sorted].
Qed.


(** *** Cycles *)

Lemma restricted_path_before (operators : list string) (dependencies : depMap)
    (sorted : list string) :
  NoDup operators →
  TopologicalSort operators dependencies = Some (sorted, None) →
  ∀ a b, tc (restrictedDep operators dependencies) a b → appearsBefore sorted b a.
Proof.
  intros Hnd Hrun.
  destruct (TopologicalSort_sorted operators dependencies Hnd sorted Hrun)
    as (_ & Hnds & Horder).
  induction 1 as [a b (Ha & Hb & Hab)|a b c (Ha & Hb & Hab) _ IH].
  - by apply Horder.
  - destruct (Horder a b Ha Hab Hb) as (i & j & Hi & Hj & Hij).
    destruct IH as (i' & j' & Hi' & Hj' & Hij').
    assert (j' = i) as -> by (by eapply NoDup_lookup).
    exists i', j. split; [done|]. split; [done|lia].
Qed.

Lemma TopologicalSort_cycle (operators : list string) (dependencies : depMap) :
  NoDup operators →
  hasCycle operators dependencies →
  TopologicalSort operators dependencies = Some ([], Some cycleError).
Proof.
  intros Hnd [a Ha].
  destruct (TopologicalSort_cases operators dependencies) as [[sorted Hrun]|]; [|done].
  destruct (TopologicalSort_sorted operators dependencies Hnd sorted Hrun)
    as (_ & Hnds & _).
  destruct (restricted_path_before operators dependencies sorted Hnd Hrun a a Ha)
    as (i & j & Hi & Hj & Hij).
  assert (i = j) by (by eapply NoDup_lookup). lia.
Qed.





(** ** The evaluator *)

Lemma tcNameOf_inj (a b : string) : tcNameOf a = tcNameOf b → a = b.
Proof. unfold tcNameOf. intros H. by simplify_eq/=. Qed.

Lemma notFoundMsg_nonempty lib opName : notFoundMsg lib opName ≠ "".
Proof. done. Qed.

Lemma preconditionMsg_nonempty lib dep : preconditionMsg lib dep ≠ "".
Proof. done. Qed.

Lemma conditionsMsg_nonempty lib opName a d p : conditionsMsg lib opName a d p ≠ "".
Proof. done. Qed.

Lemma tcAppend_failed suite name msg skip :
  msg ≠ "" → TestCases (tcAppend suite name msg skip) = TestCases suite ++ [tcFailed name msg].
Proof. intros Hmsg. unfold tcAppend. by rewrite decide_True by done. Qed.

Lemma tcAppend_skipped suite name msg :
  msg ≠ "" → TestCases (tcAppend suite name "" msg) = TestCases suite ++ [tcSkipped name msg].
Proof.
  intros Hmsg. unfold tcAppend.
  rewrite decide_False by (by intros ?). by rewrite decide_True by done.
Qed.

Lemma tcAppend_passed suite name :
  TestCases (tcAppend suite name "" "") = TestCases suite ++ [tcPassed name].
Proof. done. Qed.

Section evaluator_facts.
Variable lib : GoLib.

(** The dependency loop either finds no failed entry, or stops at the
    first one and names it. *)
Lemma dependencySkipMsg_cases (deps : list string) (failedOperators : gset string) :
  (dependencySkipMsg lib deps failedOperators = "" ∧
   ∀ dep, dep ∈ deps → dep ∉ failedOperators) ∨
  (∃ before dep after,
     deps = before ++ dep :: after ∧
     (∀ x, x ∈ before → x ∉ failedOperators) ∧
     dep ∈ failedOperators ∧
     dependencySkipMsg lib deps failedOperators = preconditionMsg lib dep).
Proof.
  induction deps as [|d deps IH]; cbn [dependencySkipMsg].
  - left. split; [done|]. by intros dep ?%elem_of_nil.
  - destruct (decide (d ∈ failedOperators)) as [Hd|Hd].
    + right. exists [], d, deps. split; [done|]. split; [|done].
      by intros x ?%elem_of_nil.
    + destruct IH as [[Hmsg Hnone]|(before & dep & after & -> & Hbefore & Hdep & Hmsg)].
      * left. split; [done|]. intros dep [->|Hin]%elem_of_cons; [done|by apply Hnone].
      * right. exists (d :: before), dep, after. split; [done|]. split; [|done].
        intros x [->|Hin]%elem_of_cons; [done|by apply Hbefore].
Qed.

Lemma dependencySkipMsg_nil (failedOperators : gset string) :
  dependencySkipMsg lib [] failedOperators = "".
Proof. done. Qed.


(** The message depends on the failure set only through the listed
    dependencies. *)
Lemma dependencySkipMsg_agree (deps : list string) (F1 F2 : gset string) :
  (∀ dep, dep ∈ deps → dep ∈ F1 ↔ dep ∈ F2) →
  dependencySkipMsg lib deps F1 = dependencySkipMsg lib deps F2.
Proof.
  induction deps as [|d deps IH]; intros Hagree; cbn [dependencySkipMsg]; [done|].
  assert (d ∈ F1 ↔ d ∈ F2) as Hd by (apply Hagree, elem_of_cons; by left).
  destruct (decide (d ∈ F1)), (decide (d ∈ F2)); try tauto.
  apply IH. intros dep Hin. apply Hagree, elem_of_cons. by right.
Qed.

Variable finalDeps : depMap.

Lemma checkOperator_notFound suite F opName :
  checkOperator lib finalDeps (suite, F) {| item_Name := opName; item_Op := None |}
  = (tcAppend suite (tcNameOf opName) "" (notFoundMsg lib opName), F).
Proof. done. Qed.

Lemma checkOperator_skipped suite F opName op dep :
  dependencySkipMsg lib (depsOf finalDeps opName) F = preconditionMsg lib dep →
  checkOperator lib finalDeps (suite, F) {| item_Name := opName; item_Op := Some op |}
  = (tcAppend suite (tcNameOf opName) "" (preconditionMsg lib dep), F).
Proof.
  intros Hmsg. unfold checkOperator. cbn [item_Name item_Op]. rewrite Hmsg.
  by rewrite decide_True by done.
Qed.

Lemma checkOperator_evaluated suite F opName op :
  dependencySkipMsg lib (depsOf finalDeps opName) F = "" →
  checkOperator lib finalDeps (suite, F) {| item_Name := opName; item_Op := Some op |}
  = if decide (conditionsGood lib op)
    then (tcAppend suite (tcNameOf opName) "" "", F)
    else (tcAppend suite (tcNameOf opName)
            (conditionsMsg lib opName (statusOf lib op "Available")
               (statusOf lib op "Degraded") (statusOf lib op "Progressing")) "",
          {[opName]} ∪ F).
Proof.
  intros Hmsg. unfold checkOperator. cbn [item_Name item_Op]. rewrite Hmsg.
  rewrite decide_False by (by intros ?). done.
Qed.

(** One iteration appends one test case, named after the operator, and
    can add nobody but that operator to the failure set. *)
Lemma checkOperator_shape suite F item :
  ∃ tc,
    TestCases (checkOperator lib finalDeps (suite, F) item).1 = TestCases suite ++ [tc] ∧
    tc_Name tc = tcNameOf (item_Name item) ∧
    F ⊆ (checkOperator lib finalDeps (suite, F) item).2 ∧
    (checkOperator lib finalDeps (suite, F) item).2 ⊆ {[item_Name item]} ∪ F.
Proof.
  destruct item as [opName [op|]].
  - destruct (dependencySkipMsg_cases (depsOf finalDeps opName) F)
      as [[Hmsg _]|(before & dep & after & _ & _ & _ & Hmsg)].
    + rewrite checkOperator_evaluated by done. case_decide; cbn [fst snd].
      * eexists. rewrite tcAppend_passed. split; [done|]. simpl. set_solver.
      * eexists. rewrite tcAppend_failed by done. split; [done|]. simpl. set_solver.
    + rewrite (checkOperator_skipped _ _ _ _ dep) by done. cbn [fst snd].
      eexists. rewrite tcAppend_skipped by done. split; [done|]. simpl. set_solver.
  - rewrite checkOperator_notFound. cbn [fst snd].
    eexists. rewrite tcAppend_skipped by done.
    split; [done|]. simpl. set_solver.
Qed.

Lemma checkOperators_shape items :
  ∀ suite F,
  ∃ tcs,
    TestCases (foldl (checkOperator lib finalDeps) (suite, F) items).1
      = TestCases suite ++ tcs ∧
    tc_Name <$> tcs = (λ item, tcNameOf (item_Name item)) <$> items ∧
    F ⊆ (foldl (checkOperator lib finalDeps) (suite, F) items).2 ∧
    (foldl (checkOperator lib finalDeps) (suite, F) items).2
      ⊆ list_to_set (item_Name <$> items) ∪ F.
Proof.
  induction items as [|item items IH]; intros suite F; cbn [foldl].
  - exists []. rewrite (right_id_L [] (++)). split; [done|]. split; [done|].
    simpl. set_solver.
  - destruct (checkOperator_shape suite F item) as (tc & Htc & Hname & Hsub1 & Hsub2).
    destruct (checkOperator lib finalDeps (suite, F) item) as [suite1 F1].
    simpl in Htc, Hsub1, Hsub2.
    destruct (IH suite1 F1) as (tcs & Htcs & Hnames & Hsub3 & Hsub4).
    exists (tc :: tcs). rewrite Htcs, Htc, <- (assoc_L (++)). split; [done|].
    split; [by rewrite !fmap_cons, Hname, Hnames|].
    rewrite fmap_cons. simpl. set_solver.
Qed.

Lemma operatorCases_other (tcs : list JUnitTestCase) (names : list string) (X : string) :
  tc_Name <$> tcs = tcNameOf <$> names → X ∉ names → operatorCases tcs X = [].
Proof.
  revert names. induction tcs as [|tc tcs IH]; intros [|n names] Hnames HX;
    simplify_eq/=; [done..|].
  rename select (tc_Name tc = _) into Hname.
  rename select (tc_Name <$> tcs = _) into Hrest.
  unfold operatorCases. rewrite filter_cons_False.
  - eapply IH; [done|]. intros Hin. apply HX. apply elem_of_cons. by right.
  - intros Heq. apply HX. apply elem_of_cons. left.
    apply tcNameOf_inj. congruence.
Qed.
End evaluator_facts.

(** *** The list the evaluator walks *)


Lemma item_Name_itemOf (operatorsMap : gmap string objxMap) (names : list string) :
  item_Name <$> (itemOf operatorsMap <$> names) = names.
Proof. rewrite <- list_fmap_compose. by rewrite (list_fmap_ext _ id names), list_fmap_id. Qed.

Lemma consumeCore_fold (l : list string) :
  NoDup l →
  ∀ (acc : list finalOperator) (m : gmap string objxMap),
  ∃ left,
    foldl consumeStep (acc, m) l = (acc ++ (itemOf m <$> l), left) ∧
    ∀ n, left !! n = if decide (n ∈ l) then None else m !! n.
Proof.
  induction l as [|a l IH]; intros Hnd acc m; cbn [foldl].
  - exists m. rewrite fmap_nil, (right_id_L [] (++)). split; [done|].
    intros n. case_dec (n ∈ []) as [Hin|_]; [by apply elem_of_nil in Hin|done].
  - apply NoDup_cons in Hnd as [Ha Hnd].
    assert (consumeStep (acc, m) a = (acc ++ [itemOf m a], delete a m)) as ->.
    { unfold consumeStep, itemOf. destruct (m !! a) eqn:Hm; [done|].
      by rewrite delete_id. }
    destruct (IH Hnd (acc ++ [itemOf m a]) (delete a m)) as (left & Hrun & Hleft).
    exists left. split.
    + rewrite Hrun, fmap_cons, <- (assoc_L (++)). simpl. do 3 f_equal.
      apply list_fmap_ext. intros i n Hn. unfold itemOf. f_equal.
      apply lookup_delete_ne. intros ->. apply Ha. by eapply list_elem_of_lookup_2.
    + intros n. rewrite Hleft.
      case_dec (n ∈ l) as [Hin|Hin].
      * case_dec (n ∈ a :: l) as [_|Hn]; [done|].
        contradict Hn. apply elem_of_cons. by right.
      * destruct (decide (n = a)) as [->|Hne].
        -- rewrite lookup_delete_eq.
           case_dec (a ∈ a :: l) as [_|Hn]; [done|].
           contradict Hn. apply elem_of_cons. by left.
        -- rewrite lookup_delete_ne by done.
           case_dec (n ∈ a :: l) as [Hn|_]; [|done].
           apply elem_of_cons in Hn. tauto.
Qed.

Lemma leftOperators_spec (ord : MapOrder) (left : gmap string objxMap) :
  leftOperators ord left = itemOf left <$> rangeKeys ord (dom left).
Proof.
  unfold leftOperators.
  assert (∀ l : list string,
            (∀ n, n ∈ l → n ∈ dom left) →
            omap (λ opName,
                    match left !! opName with
                    | Some op => Some {| item_Name := opName; item_Op := Some op |}
                    | None => None
                    end) l = itemOf left <$> l) as Hgen.
  { induction l as [|a l IH]; intros Hl; [done|].
    assert (a ∈ dom left) as Ha by (apply Hl, elem_of_cons; by left).
    csimpl. unfold itemOf at 1.
    destruct (left !! a) as [op|] eqn:Hop.
    - rewrite IH; [done|]. intros n Hn. apply Hl, elem_of_cons. by right.
    - by apply not_elem_of_dom in Hop. }
  apply Hgen. intros n. by rewrite elem_of_rangeKeys.
Qed.


Lemma finalOperatorsOf_spec (ord : MapOrder) (sorted : list string)
    (operatorsMap : gmap string objxMap) :
  NoDup sorted →
  ∃ extras,
    finalOperatorsOf ord sorted operatorsMap = itemOf operatorsMap <$> (sorted ++ extras) ∧
    NoDup (sorted ++ extras) ∧
    (∀ n, n ∈ extras ↔ n ∈ dom operatorsMap ∧ n ∉ sorted) ∧
    (∀ ord', ∃ extras',
        finalOperatorsOf ord' sorted operatorsMap
          = itemOf operatorsMap <$> (sorted ++ extras') ∧
        extras' ≡ₚ extras).
Proof.
  intros Hnd. unfold finalOperatorsOf, consumeCore.
  destruct (consumeCore_fold sorted Hnd [] operatorsMap) as (left & -> & Hleft).
  assert (∀ n, n ∈ dom left ↔ n ∈ dom operatorsMap ∧ n ∉ sorted) as Hdom.
  { intros n. rewrite !elem_of_dom, Hleft.
    destruct (decide (n ∈ sorted)); [|tauto].
    split; [by intros [? ?]|tauto]. }
  assert (∀ ord0, itemOf left <$> rangeKeys ord0 (dom left)
                  = itemOf operatorsMap <$> rangeKeys ord0 (dom left)) as Hitems.
  { intros ord0. apply list_fmap_ext. intros i n Hn. unfold itemOf. f_equal.
    apply list_elem_of_lookup_2, elem_of_rangeKeys, Hdom in Hn as [_ Hn].
    rewrite Hleft. by rewrite decide_False. }
  exists (rangeKeys ord (dom left)). split; [|split; [|split]].
  - by rewrite leftOperators_spec, fmap_app, Hitems.
  - apply NoDup_app. split; [done|]. split; [|apply NoDup_rangeKeys].
    intros n Hn Hin. apply elem_of_rangeKeys, Hdom in Hin. tauto.
  - intros n. by rewrite elem_of_rangeKeys.
  - intros ord'. exists (rangeKeys ord' (dom left)). split.
    + by rewrite leftOperators_spec, fmap_app, Hitems.
    + by rewrite !rangeKeys_perm.
Qed.

Section evaluator_positions.
Variable lib : GoLib.
Variable finalDeps : depMap.
Variable operatorsMap : gmap string objxMap.

(** The evaluation seen from the entry of one operator [X]. *)
Lemma checkOperators_at (pre post : list string) (X : string) (suite : JUnitTestSuite) :
  NoDup (pre ++ X :: post) →
  let st1 := foldl (checkOperator lib finalDeps) (suite, ∅) (itemOf operatorsMap <$> pre) in
  let st2 := checkOperator lib finalDeps st1 (itemOf operatorsMap X) in
  let st' := checkOperators lib finalDeps
               (itemOf operatorsMap <$> (pre ++ X :: post)) suite in
  st1.2 ⊆ list_to_set pre ∧
  st1.2 ⊆ st'.2 ∧
  (∀ A, A ∈ pre → A ∈ st'.2 → A ∈ st1.2) ∧
  (X ∈ st'.2 ↔ X ∈ st2.2) ∧
  ∃ tcs tc,
    TestCases st'.1 = TestCases suite ++ tcs ∧
    TestCases st2.1 = TestCases st1.1 ++ [tc] ∧
    operatorCases tcs X = [tc].
Proof.
  intros Hnd st1 st2 st'.
  apply NoDup_app in Hnd as (Hpre & Hdisj & [HX Hpost]%NoDup_cons).
  assert (X ∉ pre) as HXpre.
  { intros Hin. apply (Hdisj X Hin). apply elem_of_cons. by left. }
  assert (st' = foldl (checkOperator lib finalDeps) st2 (itemOf operatorsMap <$> post)) as Hst'.
  { unfold st', checkOperators. by rewrite fmap_app, fmap_cons, foldl_app. }
  destruct (checkOperators_shape lib finalDeps (itemOf operatorsMap <$> pre) suite ∅)
    as (tcs1 & Htcs1 & Hnames1 & _ & Hsub1).
  fold st1 in Htcs1, Hsub1.
  rewrite item_Name_itemOf in Hsub1.
  destruct (checkOperator_shape lib finalDeps st1.1 st1.2 (itemOf operatorsMap X))
    as (tc & Htc & Hname & Hsub2 & Hsub3).
  rewrite <- surjective_pairing in Htc, Hsub2, Hsub3.
  fold st2 in Htc, Hsub2, Hsub3.
  cbn [item_Name itemOf] in Hname, Hsub3.
  destruct (checkOperators_shape lib finalDeps (itemOf operatorsMap <$> post)
              st2.1 st2.2) as (tcs3 & Htcs3 & Hnames3 & Hsub4 & Hsub5).
  rewrite <- surjective_pairing in Htcs3, Hsub4, Hsub5.
  rewrite <- Hst' in Htcs3, Hsub4, Hsub5.
  rewrite item_Name_itemOf in Hsub5.
  assert (∀ A, A ∈ pre → A ∉ post) as Hprepost.
  { intros A HA Hin. apply (Hdisj A HA). apply elem_of_cons. by right. }
  split; [set_solver|]. split; [set_solver|]. split; [|split].
  - intros A HA HAF. apply Hsub5 in HAF.
    apply elem_of_union in HAF as [HAF|HAF].
    { apply elem_of_list_to_set in HAF. by destruct (Hprepost A). }
    apply Hsub3 in HAF. apply elem_of_union in HAF as [HAF|HAF]; [|done].
    apply elem_of_singleton in HAF. by subst.
  - split; [|set_solver]. intros HXF. apply Hsub5 in HXF.
    apply elem_of_union in HXF as [HXF|HXF]; [|done].
    by apply elem_of_list_to_set in HXF.
  - exists (tcs1 ++ [tc] ++ tcs3), tc. split; [|split; [done|]].
    + rewrite Htcs3, Htc, Htcs1. by rewrite <- !(assoc_L (++)).
    + unfold operatorCases. rewrite !filter_app.
      fold (operatorCases tcs1 X). fold (operatorCases tcs3 X).
      rewrite (operatorCases_other tcs1 pre X), (operatorCases_other tcs3 post X).
      * rewrite filter_cons_True by done. by rewrite filter_nil.
      * by rewrite Hnames3, <- list_fmap_compose.
      * done.
      * by rewrite Hnames1, <- list_fmap_compose.
      * done.
Qed.
End evaluator_positions.

(** ** The expanded map as the evaluator sees it *)

Lemma tc_first_is_key (deps : depMap) (a b : string) :
  tc (dependsOn deps) a b → a ∈ dom deps.
Proof.
  intros Hab. apply elem_of_dom.
  destruct Hab as [a b (ds & Hds & _)|a b c (ds & Hds & _) _]; by eexists.
Qed.

Lemma tc_last_is_listed (deps : depMap) (a b : string) :
  tc (dependsOn deps) a b → ∃ k, dependsOn deps k b.
Proof. induction 1 as [a b Hab|a b c _ _ IH]; [by exists a|done]. Qed.

Lemma dom_expandDependencies (ord : MapOrder) (manualDeps finalDeps : depMap) :
  expandDependencies ord manualDeps = Some finalDeps →
  dom finalDeps = coreSetOf ord manualDeps.
Proof.
  intros Hexp. destruct (expandDependencies_lookup ord manualDeps) as (m & Hm & Hlook).
  simplify_eq. apply set_eq. intros op. rewrite elem_of_dom, Hlook.
  destruct (decide (op ∈ coreSetOf ord manualDeps)) as [Hin|Hnin].
  - split; [done|by eexists].
  - split; [by intros [? ?]|done].
Qed.

Lemma depsOf_expandDependencies (ord : MapOrder) (manualDeps finalDeps : depMap)
    (op : string) :
  expandDependencies ord manualDeps = Some finalDeps →
  depsOf finalDeps op = expandedOf ord manualDeps op.
Proof.
  intros Hexp. destruct (expandDependencies_lookup ord manualDeps) as (m & Hm & Hlook).
  simplify_eq. unfold depsOf. rewrite Hlook.
  destruct (decide (op ∈ coreSetOf ord manualDeps)) as [Hin|Hnin]; [done|].
  simpl. unfold expandedOf.
  destruct (manualDeps !! op) as [ds|] eqn:Hop; [|done].
  exfalso. apply Hnin, elem_of_coreSetOf. left. apply elem_of_dom. by eexists.
Qed.

(** The list filed under [op] holds exactly what [op] depends on, directly
    or through a chain. *)
Lemma elem_of_expanded (ord : MapOrder) (manualDeps finalDeps : depMap) (op x : string) :
  expandDependencies ord manualDeps = Some finalDeps →
  x ∈ depsOf finalDeps op ↔ tc (dependsOn manualDeps) op x.
Proof.
  intros Hexp. rewrite (depsOf_expandDependencies ord manualDeps finalDeps op Hexp).
  unfold expandedOf. destruct (manualDeps !! op) as [ds|] eqn:Hop.
  - destruct (getAllUpstreamDependencies_total ord op manualDeps) as [l Hl].
    rewrite Hl. simpl. by apply (elem_of_getAllUpstreamDependencies ord).
  - split; [by intros ?%elem_of_nil|].
    intros Hreach%tc_first_is_key. by apply not_elem_of_dom in Hop.
Qed.

Lemma expanded_sorted (ord : MapOrder) (manualDeps finalDeps : depMap) (op : string) :
  expandDependencies ord manualDeps = Some finalDeps →
  StronglySorted String.le (depsOf finalDeps op) ∧ NoDup (depsOf finalDeps op).
Proof.
  intros Hexp. rewrite (depsOf_expandDependencies ord manualDeps finalDeps op Hexp).
  unfold expandedOf. destruct (manualDeps !! op) as [ds|].
  - destruct (getAllUpstreamDependencies_total ord op manualDeps) as [l Hl].
    rewrite Hl. simpl. apply (getAllUpstreamDependencies_sorted ord op manualDeps l Hl).
  - split; constructor.
Qed.

(** The expanded map does not depend on the order maps are ranged in. *)
Lemma expandDependencies_order (ord1 ord2 : MapOrder) (manualDeps : depMap) :
  expandDependencies ord1 manualDeps = expandDependencies ord2 manualDeps.
Proof.
  destruct (expandDependencies_lookup ord1 manualDeps) as (m1 & -> & Hlook1).
  destruct (expandDependencies_lookup ord2 manualDeps) as (m2 & -> & Hlook2).
  f_equal. apply map_eq. intros op. rewrite Hlook1, Hlook2.
  rewrite (coreSetOf_order ord1 ord2). case_decide; [|done].
  f_equal. unfold expandedOf. destruct (manualDeps !! op); [|done].
  by rewrite (getAllUpstreamDependencies_order ord1 ord2).
Qed.


Lemma NoDup_coreOperatorsOf (ord : MapOrder) (finalDeps : depMap) :
  NoDup (coreOperatorsOf ord finalDeps).
Proof. apply NoDup_sortStrings, NoDup_rangeKeys. Qed.

Lemma elem_of_coreOperatorsOf (ord : MapOrder) (finalDeps : depMap) (x : string) :
  x ∈ coreOperatorsOf ord finalDeps ↔ x ∈ dom finalDeps.
Proof. unfold coreOperatorsOf. by rewrite elem_of_sortStrings, elem_of_rangeKeys. Qed.

Lemma operatorStage_completed lib ord manualDeps obj suite suite' failed :
  operatorStage lib ord manualDeps obj suite = Some (Some (suite', failed)) →
  ∃ finalDeps sorted,
    expandDependencies ord manualDeps = Some finalDeps ∧
    TopologicalSort (coreOperatorsOf ord finalDeps) finalDeps = Some (sorted, None) ∧
    checkOperators lib finalDeps
      (finalOperatorsOf ord sorted (operatorsMapOf lib obj)) suite = (suite', failed).
Proof.
  unfold operatorStage, coreOperatorsOf, finalOperatorsOf. intros Hrun.
  destruct (expandDependencies ord manualDeps) as [finalDeps|] eqn:Hexp; [|done].
  destruct (TopologicalSort _ finalDeps) as [[sorted [err|]]|] eqn:Hsort; simpl in Hrun;
    [by simplify_eq| |by simplify_eq].
  exists finalDeps, sorted. split; [done|]. split; [done|].
  destruct (consumeCore sorted (operatorsMapOf lib obj)) as [core left].
  by simplify_eq.
Qed.

Lemma operatorStage_aborted lib ord manualDeps obj suite finalDeps :
  expandDependencies ord manualDeps = Some finalDeps →
  TopologicalSort (coreOperatorsOf ord finalDeps) finalDeps = Some ([], Some cycleError) →
  operatorStage lib ord manualDeps obj suite = Some None.
Proof.
  unfold operatorStage, coreOperatorsOf. by intros -> ->.
Qed.

(** A run whose stages complete: the expander and the sequencer return,
    so the operator stage does. *)
Lemma operatorStage_total lib ord manualDeps obj suite :
  is_Some (operatorStage lib ord manualDeps obj suite).
Proof.
  unfold operatorStage.
  destruct (expandDependencies_lookup ord manualDeps) as (finalDeps & -> & _).
  destruct (TopologicalSort_cases (sortStrings (rangeKeys ord (dom finalDeps))) finalDeps)
    as [[sorted ->]| ->]; [|by eexists].
  destruct (consumeCore sorted (operatorsMapOf lib obj)). by eexists.
Qed.

(** ** Cascading skips *)


(** ** Two runs on the same input *)


Lemma operatorStage_run lib ord manualDeps obj suite finalDeps sorted :
  expandDependencies ord manualDeps = Some finalDeps →
  TopologicalSort (coreOperatorsOf ord finalDeps) finalDeps = Some (sorted, None) →
  operatorStage lib ord manualDeps obj suite
  = Some (Some (checkOperators lib finalDeps
                  (finalOperatorsOf ord sorted (operatorsMapOf lib obj)) suite)).
Proof.
  unfold operatorStage, coreOperatorsOf, finalOperatorsOf. intros -> ->.
  by destruct (consumeCore sorted (operatorsMapOf lib obj)).
Qed.


Section solo.
Variable lib : GoLib.
Variable finalDeps : depMap.
Variable operatorsMap : gmap string objxMap.


Lemma checkOperator_solo suite F item :
  depsOf finalDeps (item_Name item) = [] →
  TestCases (checkOperator lib finalDeps (suite, F) item).1
  = TestCases suite ++ [(soloOutcome lib item).1] ∧
  (checkOperator lib finalDeps (suite, F) item).2
  = if (soloOutcome lib item).2 then {[item_Name item]} ∪ F else F.
Proof.
  intros Hdeps. unfold soloOutcome.
  destruct item as [opName [op|]]; cbn [item_Name item_Op] in *.
  - rewrite checkOperator_evaluated by (by rewrite Hdeps).
    case_decide; cbn [fst snd]; [by rewrite tcAppend_passed|].
    by rewrite tcAppend_failed by done.
  - rewrite checkOperator_notFound. cbn [fst snd]. by rewrite tcAppend_skipped by done.
Qed.



End solo.


(** ** What the failure set and the report say about one operator *)

(** Who is in the failure set at the end of a run: exactly the operators
    whose one test case is a Failed one. *)
Lemma failure_set_reported lib ord manualDeps obj suite suite' failed :
  operatorStage lib ord manualDeps obj suite = Some (Some (suite', failed)) →
  ∃ tcs,
    TestCases suite' = TestCases suite ++ tcs ∧
    ∀ A, A ∈ failed ↔ ∃ msg, operatorCases tcs A = [tcFailed (tcNameOf A) msg].
Proof.
  intros (finalDeps & sorted & Hexp & Hsort & Hcheck)%operatorStage_completed.
  destruct (TopologicalSort_sorted _ _ (NoDup_coreOperatorsOf ord finalDeps) _ Hsort)
    as (_ & Hnds & _).
  destruct (finalOperatorsOf_spec ord sorted (operatorsMapOf lib obj) Hnds)
    as (extras & Hfinal & Hnd & _ & _).
  rewrite Hfinal in Hcheck. set (names := sorted ++ extras) in *.
  destruct (checkOperators_shape lib finalDeps
              (itemOf (operatorsMapOf lib obj) <$> names) suite ∅)
    as (tcs & Htcs & Hnames & _ & Hsub).
  fold (checkOperators lib finalDeps (itemOf (operatorsMapOf lib obj) <$> names) suite)
    in Htcs, Hsub.
  rewrite Hcheck in Htcs, Hsub. simpl in Htcs, Hsub.
  rewrite item_Name_itemOf in Hsub. rewrite <- list_fmap_compose in Hnames.
  exists tcs. split; [done|]. intros A.
  destruct (decide (A ∈ names)) as [HA|HA].
  2:{ rewrite (operatorCases_other tcs names A) by done. split; [|by intros [? ?]].
      intros Hin%Hsub. exfalso. apply HA. set_solver. }
  apply list_elem_of_split in HA as (pre & post & Hsplit).
  rewrite Hsplit in Hnd, Hcheck.
  destruct (checkOperators_at lib finalDeps (operatorsMapOf lib obj) pre post A suite Hnd)
    as (Hsub1 & _ & _ & HAiff & tcs' & tc & Htcs' & Htc & Hcases).
  rewrite Hcheck in HAiff, Htcs'. simpl in HAiff, Htcs'.
  assert (tcs' = tcs) as -> by (rewrite Htcs in Htcs'; by apply (inj (app _)) in Htcs').
  set (st1 := foldl (checkOperator lib finalDeps) (suite, ∅)
                (itemOf (operatorsMapOf lib obj) <$> pre)) in *.
  assert (A ∉ st1.2) as HAst1.
  { intros HX%Hsub1%elem_of_list_to_set. apply NoDup_app in Hnd as (_ & Hdisj & _).
    apply (Hdisj A HX). apply elem_of_cons. by left. }
  rewrite Hcases, HAiff. rewrite (surjective_pairing st1) in Htc |- *.
  unfold itemOf in *.
  destruct (operatorsMapOf lib obj !! A) as [op|] eqn:Hop.
  - destruct (dependencySkipMsg_cases lib (depsOf finalDeps A) st1.2)
      as [[Hmsg _]|(before & dep & after & _ & _ & _ & Hmsg)].
    + rewrite checkOperator_evaluated in Htc |- * by done.
      destruct (decide (conditionsGood lib op)); cbn [fst snd] in *.
      * rewrite tcAppend_passed in Htc. apply (inj (app _)) in Htc.
        split; [done|]. intros [msg Hm]. by simplify_eq.
      * rewrite tcAppend_failed in Htc by done. apply (inj (app _)) in Htc.
        split; [|set_solver]. intros _. eexists. by rewrite <- Htc.
    + rewrite (checkOperator_skipped lib finalDeps _ _ _ _ dep Hmsg) in Htc |- *.
      cbn [fst snd] in *. rewrite tcAppend_skipped in Htc by done.
      apply (inj (app _)) in Htc. split; [done|]. intros [msg Hm]. by simplify_eq.
  - rewrite checkOperator_notFound in Htc |- *.
    cbn [fst snd] in *. rewrite tcAppend_skipped in Htc by done.
    apply (inj (app _)) in Htc. split; [done|]. intros [msg Hm]. by simplify_eq.
Qed.

(** An operator the cluster lists but the dependency map does not know is
    judged on its own conditions. *)
Lemma extra_operator_outcome lib ord manualDeps finalDeps obj suite suite' failed X :
  operatorStage lib ord manualDeps obj suite = Some (Some (suite', failed)) →
  expandDependencies ord manualDeps = Some finalDeps →
  X ∈ dom (operatorsMapOf lib obj) →
  X ∉ dom finalDeps →
  ∃ tcs,
    TestCases suite' = TestCases suite ++ tcs ∧
    operatorCases tcs X = [(soloOutcome lib (itemOf (operatorsMapOf lib obj) X)).1] ∧
    (X ∈ failed ↔ (soloOutcome lib (itemOf (operatorsMapOf lib obj) X)).2 = true).
Proof.
  intros (finalDeps' & sorted & Hexp & Hsort & Hcheck)%operatorStage_completed Hexp' HX HXdom.
  assert (finalDeps' = finalDeps) as -> by congruence. clear Hexp'.
  destruct (TopologicalSort_sorted _ _ (NoDup_coreOperatorsOf ord finalDeps) _ Hsort)
    as (Hperm & Hnds & _).
  destruct (finalOperatorsOf_spec ord sorted (operatorsMapOf lib obj) Hnds)
    as (extras & Hfinal & Hnd & Hextras & _).
  rewrite Hfinal in Hcheck. set (names := sorted ++ extras) in *.
  assert (X ∈ names) as HXn.
  { apply elem_of_app. right. apply Hextras. split; [done|].
    rewrite Hperm. by rewrite elem_of_coreOperatorsOf. }
  apply list_elem_of_split in HXn as (pre & post & Hsplit).
  rewrite Hsplit in Hnd, Hcheck.
  destruct (checkOperators_at lib finalDeps (operatorsMapOf lib obj) pre post X suite Hnd)
    as (Hsub1 & _ & _ & HXiff & tcs & tc & Htcs & Htc & Hcases).
  rewrite Hcheck in HXiff, Htcs. simpl in HXiff, Htcs.
  set (st1 := foldl (checkOperator lib finalDeps) (suite, ∅)
                (itemOf (operatorsMapOf lib obj) <$> pre)) in *.
  assert (X ∉ st1.2) as HXst1.
  { intros HX'%Hsub1%elem_of_list_to_set. apply NoDup_app in Hnd as (_ & Hdisj & _).
    apply (Hdisj X HX'). apply elem_of_cons. by left. }
  destruct (checkOperator_solo lib finalDeps st1.1 st1.2 (itemOf (operatorsMapOf lib obj) X))
    as [Hsolo1 Hsolo2].
  { unfold depsOf. cbn [item_Name itemOf].
    apply not_elem_of_dom in HXdom. by rewrite HXdom. }
  rewrite <- surjective_pairing in Hsolo1, Hsolo2.
  rewrite Hsolo1 in Htc. apply (inj (app _)) in Htc.
  exists tcs. split; [done|]. split; [congruence|].
  rewrite HXiff, Hsolo2. cbn [item_Name itemOf].
  destruct (soloOutcome lib _).2; [set_solver|]. split; [done|by intros ?].
Qed.

(** No operator's expanded list names an operator outside the domain. *)
Lemma expanded_within_domain (ord : MapOrder) (manualDeps finalDeps : depMap)
    (op x : string) :
  expandDependencies ord manualDeps = Some finalDeps →
  x ∈ depsOf finalDeps op → x ∈ dom finalDeps.
Proof.
  intros Hexp Hx. rewrite (dom_expandDependencies ord manualDeps) by done.
  apply elem_of_coreSetOf. right.
  apply (elem_of_expanded ord manualDeps finalDeps) in Hx; [|done].
  by eapply tc_last_is_listed.
Qed.

Lemma String_cons_neq (c : ascii) (s : string) : String c s ≠ s.
Proof. revert c. induction s as [|a s IH]; intros c Heq; simplify_eq. by eapply IH. Qed.

Lemma tcAppend_one suite name failureMsg skipMsg :
  ∃ tc, TestCases (tcAppend suite name failureMsg skipMsg) = TestCases suite ++ [tc].
Proof. unfold tcAppend. repeat case_decide; by eexists. Qed.





(** * The stated properties *)


Lemma chain_B_on_A : tc (dependsOn chainDeps) "B" "A".
Proof. apply tc_once. exists ["A"]. split; [by vm_compute|by_compute]. Qed.

Lemma chain_C_on_B : tc (dependsOn chainDeps) "C" "B".
Proof. apply tc_once. exists ["B"]. split; [by vm_compute|by_compute]. Qed.

Lemma chainRun_completes :
  operatorStage sampleLib elementsOrder chainDeps chainCluster emptySuite
  = Some (Some (chainRun.1, chainRun.2)).
Proof. by vm_compute. Qed.



(** C2: when the sequencer succeeds on an operator set (a slice without
    repetitions), the order it returns is a permutation of that set, and
    every operator stands strictly after each of its listed dependencies
    that belongs to the set. *)
Theorem C2_topological_validity (operators : list string) (dependencies : depMap)
    (sorted : list string) :
  NoDup operators →
  TopologicalSort operators dependencies = Some (sorted, None) →
  sorted ≡ₚ operators ∧
  ∀ A B, A ∈ operators → B ∈ operators → B ∈ depsOf dependencies A →
         appearsBefore sorted B A.
Proof.
  intros Hnd Hrun.
  destruct (TopologicalSort_sorted operators dependencies Hnd sorted Hrun)
    as (Hperm & _ & Horder).
  split; [done|]. intros A B HA HB HAB. by apply Horder.
Qed.

Lemma C2_topological_validity_witness :
  NoDup ["A"; "B"; "C"] ∧
  TopologicalSort ["A"; "B"; "C"] chainExpanded = Some (["A"; "B"; "C"], None) ∧
  (["A"; "B"; "C"] ≡ₚ ["A"; "B"; "C"] ∧
   ∀ A B, A ∈ ["A"; "B"; "C"] → B ∈ ["A"; "B"; "C"] → B ∈ depsOf chainExpanded A →
          appearsBefore ["A"; "B"; "C"] B A).
Proof.
  assert (NoDup ["A"; "B"; "C"]) as Hnd by by_compute.
  assert (TopologicalSort ["A"; "B"; "C"] chainExpanded = Some (["A"; "B"; "C"], None))
    as Hrun by (by vm_compute).
  split; [exact Hnd|]. split; [exact Hrun|].
  exact (C2_topological_validity ["A"; "B"; "C"] chainExpanded ["A"; "B"; "C"] Hnd Hrun).
Defined.

(** The hypothesis that the operators form a set is needed: on a slice
    that repeats "A" the counters of "B" and "C" reach zero together, and
    "B" is placed before its dependency "C". *)
Example repeated_operator_is_not_a_set :
  TopologicalSort ["A"; "A"; "B"; "C"; "D"] repeatedDeps
  = Some (["A"; "A"; "D"; "B"; "C"], None).
Proof. by_compute. Qed.

(** C3: when the dependency relation restricted to the operator set has a
    cycle, the sequencer returns the cycle error with a nil order; a run
    whose expanded map and operator set these are then returns early, and
    nothing of the operator stage is reported. *)
Theorem C3_cycle_aborts_run (operators : list string) (dependencies : depMap) :
  NoDup operators →
  hasCycle operators dependencies →
  TopologicalSort operators dependencies = Some ([], Some cycleError) ∧
  ∀ lib ord opt manualDeps start cluster,
    expandDependencies ord manualDeps = Some dependencies →
    coreOperatorsOf ord dependencies = operators →
    (∀ suite,
       operatorStage lib ord manualDeps (clusterOperatorsObj cluster) suite = Some None) ∧
    Run lib ord opt manualDeps start cluster = Some None.
Proof.
  intros Hnd Hcyc.
  pose proof (TopologicalSort_cycle operators dependencies Hnd Hcyc) as Herr.
  split; [done|]. intros lib ord opt manualDeps start cluster Hexp Hops.
  assert (∀ suite,
            operatorStage lib ord manualDeps (clusterOperatorsObj cluster) suite
            = Some None) as Hstage.
  { intros suite. apply (operatorStage_aborted lib ord manualDeps _ suite dependencies);
      [done|]. by rewrite Hops. }
  split; [done|]. unfold Run.
  destruct (clusterOperatorsErr cluster); [done|]. by rewrite Hstage.
Qed.

Lemma cyclic_has_cycle : hasCycle ["A"; "B"] cyclicExpanded.
Proof.
  exists "A". apply tc_once. split; [by_compute|]. split; by_compute.
Qed.

Lemma C3_cycle_aborts_run_witness :
  NoDup ["A"; "B"] ∧
  hasCycle ["A"; "B"] cyclicExpanded ∧
  TopologicalSort ["A"; "B"] cyclicExpanded = Some ([], Some cycleError) ∧
  ∀ lib ord opt manualDeps start cluster,
    expandDependencies ord manualDeps = Some cyclicExpanded →
    coreOperatorsOf ord cyclicExpanded = ["A"; "B"] →
    (∀ suite,
       operatorStage lib ord manualDeps (clusterOperatorsObj cluster) suite = Some None) ∧
    Run lib ord opt manualDeps start cluster = Some None.
Proof.
  assert (NoDup ["A"; "B"]) as Hnd by by_compute.
  split; [exact Hnd|]. split; [exact cyclic_has_cycle|].
  exact (C3_cycle_aborts_run ["A"; "B"] cyclicExpanded Hnd cyclic_has_cycle).
Defined.

(** The run of the design document's cycle example, end to end. *)
Example cyclic_run_reports_nothing :
  Run sampleLib elementsOrder {| JUnitDir := "/tmp/junit" |} cyclicDeps sampleStart
    sampleData = Some None.
Proof. by vm_compute. Qed.

(** C4: whenever A depends on B, directly or through a chain of direct
    dependencies, the expander returns a map whose entry for A holds B. *)
Theorem C4_closure_correctness (ord : MapOrder) (manualDeps : depMap) (A B : string) :
  tc (dependsOn manualDeps) A B →
  ∃ finalDeps expanded,
    expandDependencies ord manualDeps = Some finalDeps ∧
    finalDeps !! A = Some expanded ∧
    B ∈ expanded.
Proof.
  intros HAB.
  destruct (expandDependencies_lookup ord manualDeps) as (finalDeps & Hexp & Hlook).
  exists finalDeps, (expandedOf ord manualDeps A). split; [done|].
  assert (A ∈ coreSetOf ord manualDeps) as HA.
  { apply elem_of_coreSetOf. left. by eapply tc_first_is_key. }
  split; [by rewrite Hlook, decide_True|].
  rewrite <- (depsOf_expandDependencies ord manualDeps finalDeps A Hexp).
  by apply (elem_of_expanded ord manualDeps finalDeps).
Qed.

Lemma chain_C_on_A : tc (dependsOn chainDeps) "C" "A".
Proof. etrans; [exact chain_C_on_B|exact chain_B_on_A]. Qed.

Lemma C4_closure_correctness_witness :
  tc (dependsOn chainDeps) "C" "A" ∧
  ∃ finalDeps expanded,
    expandDependencies elementsOrder chainDeps = Some finalDeps ∧
    finalDeps !! "C" = Some expanded ∧
    "A" ∈ expanded.
Proof.
  split; [exact chain_C_on_A|].
  exact (C4_closure_correctness elementsOrder chainDeps "C" "A" chain_C_on_A).
Defined.

(** C5: the expander always returns; the keys of its result are the keys
    of the input together with everything the input lists as a dependency;
    an operator that is only ever listed, never a key, gets the empty
    list. *)
Theorem C5_domain_and_leaf_rule (ord : MapOrder) (manualDeps : depMap) :
  ∃ finalDeps,
    expandDependencies ord manualDeps = Some finalDeps ∧
    (∀ op, op ∈ dom finalDeps ↔
           op ∈ dom manualDeps ∨ ∃ k, dependsOn manualDeps k op) ∧
    (∀ op, (∃ k, dependsOn manualDeps k op) → op ∉ dom manualDeps →
           finalDeps !! op = Some []).
Proof.
  destruct (expandDependencies_lookup ord manualDeps) as (finalDeps & Hexp & Hlook).
  exists finalDeps. split; [done|]. split.
  - intros op. rewrite (dom_expandDependencies ord manualDeps finalDeps Hexp).
    apply elem_of_coreSetOf.
  - intros op Hlisted Hkey. rewrite Hlook, decide_True.
    + unfold expandedOf. apply not_elem_of_dom in Hkey. by rewrite Hkey.
    + apply elem_of_coreSetOf. by right.
Qed.

(** The first example in the comment above [expandDependencies]. *)
Example expand_leaves :
  expandDependencies elementsOrder (list_to_map [("A", ["B"; "C"])])
  = Some (list_to_map [("A", ["B"; "C"]); ("B", []); ("C", [])]).
Proof. by vm_compute. Qed.



(** The design document's example: Progressing must be exactly "False". *)
Example progressing_unknown_fails :
  TestCases
    (checkOperator sampleLib chainExpanded (emptySuite, ∅)
       {| item_Name := "B";
          item_Op := Some [("status", VMap [("conditions",
            VSlice [cond "Available" "True"; cond "Degraded" "False";
                    cond "Progressing" "Unknown"])])] |}).1
  = [tcFailed "operator conditions B"
       (conditionsMsg sampleLib "B" "True" "False" "Unknown")].
Proof. by vm_compute. Qed.

(** A record without conditions reads three empty strings and fails. *)
Example missing_conditions_fail :
  TestCases
    (checkOperator sampleLib chainExpanded (emptySuite, ∅)
       {| item_Name := "B"; item_Op := Some [] |}).1
  = [tcFailed "operator conditions B" (conditionsMsg sampleLib "B" "" "" "")].
Proof. by vm_compute. Qed.

(** The comparison is case-sensitive. *)
Example lower_case_true_fails :
  (checkOperator sampleLib chainExpanded (emptySuite, ∅)
     {| item_Name := "B";
        item_Op := Some [("status", VMap [("conditions",
          VSlice [cond "Available" "true"; cond "Degraded" "False";
                  cond "Progressing" "False"])])] |}).2
  = {[ "B" ]}.
Proof. by vm_compute. Qed.

(** C7 (what the code does): the report's file name is the prefix, then
    two underscores (one from the format string, one already in front of
    the time suffix), then the UTC stamp and [.xml]; it is never the name
    with a single underscore. *)
Theorem C7_report_file_name (start : Time) :
  reportFileName start = "cluster-health-check__" +:+ formatStamp start +:+ ".xml" ∧
  reportFileName start ≠ "cluster-health-check_" +:+ formatStamp start +:+ ".xml".
Proof.
  split.
  - reflexivity.
  - unfold reportFileName. intros Heq. simplify_eq/=.
    by apply (String_cons_neq "_" (formatStamp start +:+ ".xml")).
Qed.

Example report_file_name_sample :
  reportFileName sampleStart = "cluster-health-check__20250307-090500.xml".
Proof. by vm_compute. Qed.

(** A run that reaches its end with an output directory set writes to the
    directory joined with [reportFileName]. *)
Lemma Run_writes_report lib ord opt manualDeps start cluster effects :
  Run lib ord opt manualDeps start cluster = Some (Some effects) →
  JUnitDir opt ≠ "" →
  writtenTo effects = Some (filepath_Join lib (JUnitDir opt) (reportFileName start)).
Proof.
  unfold Run. intros Hrun Hdir.
  destruct (clusterOperatorsErr cluster); [done|].
  destruct (operatorStage _ _ _ _ _) as [[[suite failed]|]|]; [|done|done].
  simplify_eq. simpl. by rewrite decide_True.
Qed.

Example sample_run_writes :
  ∃ effects,
    Run sampleLib elementsOrder {| JUnitDir := "/tmp/junit" |} chainDeps sampleStart
      sampleData = Some (Some effects) ∧
    writtenTo effects = Some "/tmp/junit/cluster-health-check__20250307-090500.xml".
Proof. eexists. split; by vm_compute. Qed.

(** C8 (as amended): an operator that the cluster lists outside the
    dependency map's domain and whose conditions fail does join the failure
    set; but no expanded list names it, so the dependency loop of every
    operator gives the same answer with or without it. *)
Theorem C8_extra_failure_recorded_not_consulted lib ord manualDeps finalDeps obj
    suite suite' failed X op :
  operatorStage lib ord manualDeps obj suite = Some (Some (suite', failed)) →
  expandDependencies ord manualDeps = Some finalDeps →
  operatorsMapOf lib obj !! X = Some op →
  X ∉ dom finalDeps →
  ¬ conditionsGood lib op →
  X ∈ failed ∧
  (∀ Y, X ∉ depsOf finalDeps Y) ∧
  (∀ Y F, dependencySkipMsg lib (depsOf finalDeps Y) ({[X]} ∪ F)
          = dependencySkipMsg lib (depsOf finalDeps Y) F).
Proof.
  intros Hrun Hexp Hop HX Hbad.
  assert (∀ Y, X ∉ depsOf finalDeps Y) as Hnot.
  { intros Y Hin. apply HX. by eapply expanded_within_domain. }
  split; [|split; [done|]].
  - destruct (extra_operator_outcome lib ord manualDeps finalDeps obj suite suite'
                failed X Hrun Hexp) as (tcs & _ & _ & Hiff); [|done|].
    { apply elem_of_dom. by eexists. }
    apply Hiff. unfold soloOutcome, itemOf. cbn [item_Op]. rewrite Hop.
    by rewrite decide_False.
  - intros Y F. apply dependencySkipMsg_agree. intros dep Hdep.
    assert (dep ≠ X) by (intros ->; by apply (Hnot Y)). set_solver.
Qed.

Lemma extraRun_completes :
  operatorStage sampleLib elementsOrder chainDeps extraCluster emptySuite
  = Some (Some (extraRun.1, extraRun.2)).
Proof. by vm_compute. Qed.

Lemma chainExpanded_expands :
  expandDependencies elementsOrder chainDeps = Some chainExpanded.
Proof. by vm_compute. Qed.


Lemma C8_extra_failure_recorded_not_consulted_witness :
  operatorStage sampleLib elementsOrder chainDeps extraCluster emptySuite
    = Some (Some (extraRun.1, extraRun.2)) ∧
  expandDependencies elementsOrder chainDeps = Some chainExpanded ∧
  operatorsMapOf sampleLib extraCluster !! "foo" = Some degradedFoo ∧
  ("foo" ∉ dom chainExpanded) ∧
  ¬ conditionsGood sampleLib degradedFoo ∧
  "foo" ∈ extraRun.2 ∧
  (∀ Y, "foo" ∉ depsOf chainExpanded Y) ∧
  (∀ Y F, dependencySkipMsg sampleLib (depsOf chainExpanded Y) ({[ "foo" ]} ∪ F)
          = dependencySkipMsg sampleLib (depsOf chainExpanded Y) F).
Proof.
  assert (operatorsMapOf sampleLib extraCluster !! "foo" = Some degradedFoo) as Hop
    by (by vm_compute).
  assert ("foo" ∉ dom chainExpanded) as Hdom by by_compute.
  assert (¬ conditionsGood sampleLib degradedFoo) as Hbad by by_compute.
  split; [exact extraRun_completes|]. split; [exact chainExpanded_expands|].
  split; [exact Hop|]. split; [exact Hdom|]. split; [exact Hbad|].
  exact (C8_extra_failure_recorded_not_consulted sampleLib elementsOrder chainDeps
           chainExpanded extraCluster emptySuite extraRun.1 extraRun.2 "foo" degradedFoo
           extraRun_completes chainExpanded_expands Hop Hdom Hbad).
Defined.

(** C8, as first stated, fails: "foo" is listed by the cluster, is no key
    or value of the dependency map, fails its condition check, and is in
    the failure set when the run ends. *)
Lemma C8_counterexample_extra_in_failure_set :
  operatorStage sampleLib elementsOrder chainDeps extraCluster emptySuite
    = Some (Some (extraRun.1, extraRun.2)) ∧
  expandDependencies elementsOrder chainDeps = Some chainExpanded ∧
  "foo" ∈ dom (operatorsMapOf sampleLib extraCluster) ∧
  ("foo" ∉ dom chainExpanded) ∧
  "foo" ∈ extraRun.2.
Proof.
  split; [exact extraRun_completes|]. split; [exact chainExpanded_expands|].
  split; [by_compute|]. split; by_compute.
Qed.

(** C9: when listing the machines fails (an error and a nil list), the
    suite receives two test cases under the one name: first a Failed one
    with the fetch error, then a Skipped one with the no-machines message;
    the node checks follow. *)
Theorem C9_machine_fetch_failure_reported_twice lib (err : string)
    (nodeItems : list Node) (nodeErr : option string) (suite : JUnitTestSuite) :
  ∃ rest,
    TestCases (checkMachineNodeConsistency lib None (Some err) nodeItems nodeErr suite)
    = TestCases suite ++
        [ tcFailed machinesTcName (listMachinesErrMsg err);
          tcSkipped machinesTcName noMachinesMsg ] ++ rest.
Proof.
  unfold checkMachineNodeConsistency.
  set (suite1 := tcAppend suite machinesTcName (listMachinesErrMsg err) "").
  set (suite2 := tcAppend suite1 machinesTcName "" noMachinesMsg).
  assert (TestCases suite2
          = TestCases suite ++
              [ tcFailed machinesTcName (listMachinesErrMsg err);
                tcSkipped machinesTcName noMachinesMsg ]) as H2.
  { unfold suite2, suite1. rewrite tcAppend_skipped by done.
    rewrite tcAppend_failed by done. by rewrite <- (assoc_L (++)). }
  destruct nodeErr as [e|].
  - destruct (tcAppend_one suite2 nodesTcName ("Failed to list nodes: " +:+ e +:+ ".") "")
      as (tc & Htc).
    exists [tc]. rewrite Htc, H2. by rewrite <- !(assoc_L (++)).
  - cbv zeta.
    match goal with
    | |- context [if decide (_ ≤ _)%Z then tcAppend ?s _ _ _ else _] => set (suite3 := s)
    end.
    assert (∃ tc, TestCases suite3 = TestCases suite2 ++ [tc]) as (tc3 & H3).
    { unfold suite3. case_decide; apply tcAppend_one. }
    case_decide.
    + destruct (tcAppend_one suite3 countTcName "" "") as (tc & Htc).
      exists [tc3; tc]. rewrite Htc, H3, H2. by rewrite <- !(assoc_L (++)).
    + match goal with
      | |- context [tcAppend suite3 countTcName ?msg ""] =>
          destruct (tcAppend_one suite3 countTcName msg "") as (tc & Htc)
      end.
      exists [tc3; tc]. rewrite Htc, H3, H2. by rewrite <- !(assoc_L (++)).
Qed.

Example machine_fetch_failure_sample :
  TestCases
    (checkMachineNodeConsistency sampleLib None (Some "connection refused") [] None
       emptySuite)
  = [ tcFailed machinesTcName
        "Could not list machines: connection refused. The Machine API might not be available.";
      tcSkipped machinesTcName noMachinesMsg;
      tcPassed nodesTcName;
      tcPassed countTcName ].
Proof. by vm_compute. Qed.



(** The end-to-end scenario: etcd Failed, network and kube-apiserver
    Skipped naming "etcd", the additional operator Passed at the end. *)
Example end_to_end_scenario :
  TestCases
    (stageResult
       (operatorStage sampleLib elementsOrder scenarioDeps scenarioCluster emptySuite)).1
  = [ tcFailed (tcNameOf "etcd") (conditionsMsg sampleLib "etcd" "True" "True" "False");
      tcSkipped (tcNameOf "network") (preconditionMsg sampleLib "etcd");
      tcSkipped (tcNameOf "kube-apiserver") (preconditionMsg sampleLib "etcd");
      tcPassed (tcNameOf "foo") ].
Proof. by vm_compute. Qed.

(** Ranging over the maps backwards changes nothing for the chain. *)
Example chain_run_reverse_order :
  operatorStage sampleLib reverseOrder chainDeps chainCluster emptySuite
  = operatorStage sampleLib elementsOrder chainDeps chainCluster emptySuite.
Proof. by vm_compute. Qed.

(** The compiled-in table expands and can be sequenced: it has no cycle. *)
Example compiled_in_table_has_an_order :
  expandDependencies elementsOrder operatorDependencies = Some tableExpanded ∧
  TopologicalSort (coreOperatorsOf elementsOrder tableExpanded) tableExpanded
  = Some
      ([ "etcd"; "network"; "cloud-credential"; "kube-apiserver";
         "cloud-controller-manager"; "dns"; "kube-controller-manager";
         "kube-scheduler"; "openshift-apiserver"; "service-ca"; "machine-api";
         "openshift-controller-manager"; "ingress"; "machine-config"; "storage";
         "authentication"; "image-registry"; "monitoring"; "console" ], None).
Proof. split; by_compute. Qed.

(** * Further properties of the code *)

(** ** The expander, beyond closure *)

Lemma dependsOn_expanded (ord : MapOrder) (manualDeps finalDeps : depMap) (a b : string) :
  expandDependencies ord manualDeps = Some finalDeps →
  dependsOn finalDeps a b ↔ tc (dependsOn manualDeps) a b.
Proof.
  intros Hexp. rewrite <- (elem_of_expanded ord manualDeps finalDeps a b Hexp).
  unfold dependsOn, depsOf. split.
  - intros (ds & -> & Hb). done.
  - destruct (finalDeps !! a) as [ds|]; simpl; [by exists ds|by intros ?%elem_of_nil].
Qed.

Lemma tc_dependsOn_expanded (ord : MapOrder) (manualDeps finalDeps : depMap) (a b : string) :
  expandDependencies ord manualDeps = Some finalDeps →
  tc (dependsOn finalDeps) a b ↔ tc (dependsOn manualDeps) a b.
Proof.
  intros Hexp. split.
  - induction 1 as [x y Hxy|x y z Hxy _ IH].
    + by apply (dependsOn_expanded ord manualDeps finalDeps).
    + etrans; [|exact IH]. by apply (dependsOn_expanded ord manualDeps finalDeps).
  - intros Hab. apply tc_once. by apply (dependsOn_expanded ord manualDeps finalDeps).
Qed.

Lemma coreSetOf_expanded (ord : MapOrder) (manualDeps finalDeps : depMap) :
  expandDependencies ord manualDeps = Some finalDeps →
  coreSetOf ord finalDeps = coreSetOf ord manualDeps.
Proof.
  intros Hexp. apply set_eq. intros x.
  rewrite (elem_of_coreSetOf ord finalDeps).
  rewrite (dom_expandDependencies ord manualDeps finalDeps Hexp). split; [|by left].
  intros [Hx|(k & ds & Hk & Hx)]; [done|].
  rewrite <- (dom_expandDependencies ord manualDeps finalDeps Hexp).
  apply (expanded_within_domain ord manualDeps finalDeps k); [done|].
  unfold depsOf. by rewrite Hk.
Qed.

Lemma sorted_lists_equal (l k : list string) :
  StronglySorted String.le l → StronglySorted String.le k →
  NoDup l → NoDup k → (∀ x, x ∈ l ↔ x ∈ k) → l = k.
Proof.
  intros Hl Hk Hndl Hndk Hsame. apply (Sorted_unique String.le).
  - by apply StronglySorted_Sorted.
  - by apply StronglySorted_Sorted.
  - by apply NoDup_Permutation.
Qed.

(** X1: the expander always returns, and every list it files is sorted in
    ascending byte order, holds no operator twice, and holds only operators
    its key depends on, directly or through a chain. *)
Theorem X1_expanded_lists_sorted_and_sound (ord : MapOrder) (manualDeps : depMap) :
  ∃ finalDeps,
    expandDependencies ord manualDeps = Some finalDeps ∧
    ∀ op,
      StronglySorted String.le (depsOf finalDeps op) ∧
      NoDup (depsOf finalDeps op) ∧
      ∀ x, x ∈ depsOf finalDeps op → tc (dependsOn manualDeps) op x.
Proof.
  destruct (expandDependencies_lookup ord manualDeps) as (finalDeps & Hexp & _).
  exists finalDeps. split; [done|]. intros op.
  destruct (expanded_sorted ord manualDeps finalDeps op Hexp) as [Hsorted Hnd].
  split; [done|]. split; [done|]. intros x Hx.
  by apply (elem_of_expanded ord manualDeps finalDeps).
Qed.

(** X2: the expanded map is the same whatever order the Go runtime ranges
    over the maps in ([coreSet], [manualDeps], [resultSet]). *)
Theorem X2_expansion_ignores_map_order (ord1 ord2 : MapOrder) (manualDeps : depMap) :
  expandDependencies ord1 manualDeps = expandDependencies ord2 manualDeps.
Proof. apply expandDependencies_order. Qed.

(** X3: expanding an expanded map changes nothing. *)
Theorem X3_expansion_idempotent (ord : MapOrder) (manualDeps : depMap) :
  ∃ finalDeps,
    expandDependencies ord manualDeps = Some finalDeps ∧
    expandDependencies ord finalDeps = Some finalDeps.
Proof.
  destruct (expandDependencies_lookup ord manualDeps) as (finalDeps & Hexp & Hlook).
  exists finalDeps. split; [done|].
  destruct (expandDependencies_lookup ord finalDeps) as (again & Hexp2 & Hlook2).
  rewrite Hexp2. f_equal. apply map_eq. intros op. rewrite Hlook2, Hlook.
  rewrite (coreSetOf_expanded ord manualDeps finalDeps Hexp).
  destruct (decide (op ∈ coreSetOf ord manualDeps)) as [Hin|Hnin]; [|done].
  f_equal.
  rewrite <- (depsOf_expandDependencies ord finalDeps again op Hexp2).
  rewrite <- (depsOf_expandDependencies ord manualDeps finalDeps op Hexp).
  destruct (expanded_sorted ord finalDeps again op Hexp2) as [Hs2 Hnd2].
  destruct (expanded_sorted ord manualDeps finalDeps op Hexp) as [Hs1 Hnd1].
  apply sorted_lists_equal; [done..|]. intros x.
  rewrite (elem_of_expanded ord finalDeps again op x Hexp2).
  rewrite (elem_of_expanded ord manualDeps finalDeps op x Hexp).
  by apply (tc_dependsOn_expanded ord manualDeps finalDeps).
Qed.

(** ** The sequencer, beyond validity *)

Lemma inv_inner_perm operators dependencies m queue sorted a :
  kahnInv operators dependencies m queue sorted →
  a ∈ sorted ++ queue →
  released dependencies a sorted ≡ₚ innerDeps operators dependencies a.
Proof.
  intros [Hnd Hops Hdeg Hzero _] Ha.
  pose proof (Hzero a Ha) as Hz. rewrite (Hdeg a (Hops a Ha)) in Hz.
  apply submseteq_length_Permutation; [|lia].
  apply NoDup_submseteq.
  - apply NoDup_filter. by apply NoDup_app in Hnd as (? & _).
  - intros x [Hx Hxs]%list_elem_of_filter. apply list_elem_of_filter.
    split; [|done]. apply Hops, elem_of_app. by left.
Qed.

Lemma complete_step operators dependencies m node queue sorted m' queue' :
  NoDup operators →
  kahnComplete operators m (node :: queue) sorted →
  releaseNode node operators dependencies (m, queue) = (m', queue') →
  kahnComplete operators m' queue' (sorted ++ [node]).
Proof.
  intros Hnd Hcomplete Hrel.
  destruct (release_fold dependencies node operators Hnd m queue) as (m1 & Hrun & Hm1).
  unfold releaseNode in Hrel. rewrite Hrun in Hrel. simplify_eq.
  intros op Hop Hzero. rewrite Hm1 in Hzero.
  rewrite !elem_of_app.
  destruct (decide (op ∈ operators ∧ node ∈ depsOf dependencies op)) as [[_ Hdep]|Hno].
  - right. right. apply list_elem_of_filter. split; [|done]. split; [done|lia].
  - apply Hcomplete in Hzero; [|done].
    apply elem_of_app in Hzero as [?|[->|Hq]%elem_of_cons].
    + left. by left.
    + left. right. apply elem_of_cons. by left.
    + right. by left.
Qed.

Lemma kahnLoop_final operators dependencies fuel :
  NoDup operators →
  ∀ m queue sorted result,
    kahnInv operators dependencies m queue sorted →
    kahnComplete operators m queue sorted →
    kahnLoop fuel operators dependencies m queue sorted = Some result →
    ∃ m', kahnInv operators dependencies m' [] result ∧
          kahnComplete operators m' [] result.
Proof.
  intros Hnd. induction fuel as [|fuel IH]; intros m queue sorted result Hinv Hcomp Hrun.
  - destruct queue; simpl in Hrun; [|done]. simplify_eq. by exists m.
  - destruct queue as [|node queue]; simpl in Hrun.
    + simplify_eq. by exists m.
    + destruct (releaseNode node operators dependencies (m, queue))
        as [m' queue'] eqn:Hrel.
      eapply IH; [| |done].
      * by eapply inv_step.
      * by eapply complete_step.
Qed.

(** Where the main loop of the sequencer stops, and what is returned. *)
Lemma TopologicalSort_loop_result operators dependencies :
  NoDup operators →
  ∃ result m',
    kahnInv operators dependencies m' [] result ∧
    kahnComplete operators m' [] result ∧
    TopologicalSort operators dependencies
    = if decide (length result ≠ length operators)
      then Some ([], Some cycleError) else Some (result, None).
Proof.
  intros Hnd. unfold TopologicalSort.
  set (inDegree := countInDegree operators dependencies (initInDegree operators)).
  destruct (kahnLoop_enough operators dependencies
              (size inDegree + length (seedQueue operators inDegree))
              inDegree (seedQueue operators inDegree) []) as [result Hrun].
  { pose proof (waiting_le_size inDegree). lia. }
  rewrite Hrun.
  assert (kahnComplete operators inDegree (seedQueue operators inDegree) []) as Hcomp0.
  { intros op Hop Hz. rewrite app_nil_l. by apply list_elem_of_filter. }
  destruct (kahnLoop_final operators dependencies _ Hnd _ _ _ result
              (inv_init operators dependencies Hnd) Hcomp0 Hrun)
    as (m' & Hinv & Hcomp).
  by exists result, m'.
Qed.

(** Among finitely many nodes each of which has a successor among them,
    some node lies on a cycle: without cycles there is no such node. *)
Lemma no_sink_no_nodes (R : relation string) (U : list string) :
  (∀ u, u ∈ U → ∃ v, v ∈ U ∧ R u v) →
  (∀ a, ¬ tc R a a) →
  U = [].
Proof.
  intros Hsucc Hacyc.
  assert (∀ n u, u ∈ U →
            ∃ V, NoDup V ∧ length V = n ∧ ∀ v, v ∈ V → v ∈ U ∧ tc R u v) as Hreach.
  { induction n as [|n IH]; intros u Hu.
    - exists []. split; [constructor|]. split; [done|]. by intros v ?%elem_of_nil.
    - destruct (Hsucc u Hu) as (w & Hw & Huw).
      destruct (IH w Hw) as (V & Hnd & Hlen & HV).
      exists (w :: V). split; [|split].
      + apply NoDup_cons. split; [|done]. intros Hin.
        apply (Hacyc w). by apply HV.
      + simpl. by rewrite Hlen.
      + intros v [->|Hv]%elem_of_cons; [split; [done|by apply tc_once]|].
        destruct (HV v Hv) as [? ?]. split; [done|]. by eapply tc_l. }
  destruct U as [|u U]; [done|]. exfalso.
  destruct (Hreach (S (length (u :: U))) u) as (V & Hnd & Hlen & HV).
  { apply elem_of_cons. by left. }
  assert (V ⊆+ u :: U) as Hsub by (apply NoDup_submseteq; [done|]; intros v Hv; by apply HV).
  apply submseteq_length in Hsub. lia.
Qed.

(** X4: the sequencer returns on every input, also when operators repeat
    or the graph has cycles: either an order as long as the input and made
    of its operators, with no error, or the nil order with the cycle
    error. *)
Theorem X4_sequencer_always_returns (operators : list string) (dependencies : depMap) :
  (∃ sorted,
     TopologicalSort operators dependencies = Some (sorted, None) ∧
     length sorted = length operators) ∨
  TopologicalSort operators dependencies = Some ([], Some cycleError).
Proof.
  destruct (TopologicalSort_total operators dependencies) as [r Hr].
  revert Hr. unfold TopologicalSort.
  destruct (kahnLoop _ _ _ _ _ _) as [sorted|]; [|done].
  destruct (decide (length sorted ≠ length operators)) as [Hne|Heq]; intros Hr.
  - by right.
  - left. exists sorted. split; [done|]. by apply dec_stable in Heq.
Qed.

(** X5: an operator that lists one in-set dependency twice can never be
    released: on an operator set where some list repeats an operator of
    the set, the sequencer reports a cycle, whether there is one or not. *)
Theorem X5_repeated_dependency_reported_as_cycle (operators : list string)
    (dependencies : depMap) (a : string) :
  NoDup operators →
  a ∈ operators →
  ¬ NoDup (innerDeps operators dependencies a) →
  TopologicalSort operators dependencies = Some ([], Some cycleError).
Proof.
  intros Hnd Ha Hdup.
  destruct (TopologicalSort_loop_result operators dependencies Hnd)
    as (result & m' & Hinv & _ & ->).
  destruct (decide (length result ≠ length operators)) as [|Hlen]; [done|].
  apply dec_stable in Hlen. exfalso. apply Hdup.
  pose proof Hinv as [Hndr Hops _ _ _]. rewrite (right_id_L [] (++)) in Hndr, Hops.
  assert (result ≡ₚ operators) as Hperm.
  { apply submseteq_length_Permutation; [|lia]. by apply NoDup_submseteq. }
  rewrite <- (inv_inner_perm operators dependencies m' [] result a Hinv).
  - by apply NoDup_filter.
  - rewrite (right_id_L [] (++)). by rewrite Hperm.
Qed.

Lemma X5_repeated_dependency_reported_as_cycle_witness :
  NoDup ["A"; "B"] ∧
  "B" ∈ ["A"; "B"] ∧
  ¬ NoDup (innerDeps ["A"; "B"] (list_to_map [("B", ["A"; "A"])]) "B") ∧
  TopologicalSort ["A"; "B"] (list_to_map [("B", ["A"; "A"])])
  = Some ([], Some cycleError).
Proof.
  assert (NoDup ["A"; "B"]) as Hnd by by_compute.
  assert ("B" ∈ ["A"; "B"]) as HB by by_compute.
  assert (¬ NoDup (innerDeps ["A"; "B"] (list_to_map [("B", ["A"; "A"])]) "B")) as Hdup
    by by_compute.
  split; [exact Hnd|]. split; [exact HB|]. split; [exact Hdup|].
  exact (X5_repeated_dependency_reported_as_cycle ["A"; "B"]
           (list_to_map [("B", ["A"; "A"])]) "B" Hnd HB Hdup).
Defined.

Lemma TopologicalSort_acyclic operators dependencies :
  NoDup operators →
  (∀ a, a ∈ operators → NoDup (innerDeps operators dependencies a)) →
  ¬ hasCycle operators dependencies →
  ∃ sorted, TopologicalSort operators dependencies = Some (sorted, None).
Proof.
  intros Hnd Hinner Hacyc.
  destruct (TopologicalSort_loop_result operators dependencies Hnd)
    as (result & m' & Hinv & Hcomp & ->).
  destruct (decide (length result ≠ length operators)) as [Hlen|_]; [|by eexists].
  exfalso. apply Hlen. clear Hlen.
  pose proof Hinv as [Hndr Hops Hdeg _ _]. rewrite (right_id_L [] (++)) in Hndr, Hops.
  set (U := filter (λ op, op ∉ result) operators).
  assert (U = []) as HU.
  { apply (no_sink_no_nodes (restrictedDep operators dependencies)).
    - intros u [Hur Hu]%list_elem_of_filter.
      assert (degreeOf m' u ≠ 0%Z) as Hnz.
      { intros Hz. apply Hur. specialize (Hcomp u Hu Hz).
        by rewrite (right_id_L [] (++)) in Hcomp. }
      rewrite (Hdeg u Hu) in Hnz.
      destruct (decide (Forall (λ b, b ∈ released dependencies u result)
                          (innerDeps operators dependencies u))) as [Hall|Hnot].
      + exfalso. apply Hnz.
        assert (innerDeps operators dependencies u ⊆+ released dependencies u result)
          as Hsub1.
        { apply NoDup_submseteq; [by apply Hinner|]. by apply Forall_forall. }
        assert (released dependencies u result ⊆+ innerDeps operators dependencies u)
          as Hsub2.
        { apply NoDup_submseteq; [by apply NoDup_filter|].
          intros x [Hx Hxs]%list_elem_of_filter. apply list_elem_of_filter. auto. }
        apply submseteq_length in Hsub1, Hsub2. lia.
      + apply not_Forall_Exists, Exists_exists in Hnot as (b & Hb & Hbr). simpl in Hbr.
        apply list_elem_of_filter in Hb as [Hbo Hbd].
        exists b. split.
        * apply list_elem_of_filter. split; [|done]. intros Hin. apply Hbr.
          by apply list_elem_of_filter.
        * done.
        * intros x. apply _.
    - intros a Ha. apply Hacyc. by exists a. }
  assert (operators ⊆+ result) as Hsub.
  { apply NoDup_submseteq; [done|]. intros x Hx.
    destruct (decide (x ∈ result)) as [|Hnx]; [done|].
    assert (x ∈ U) as HxU by (by apply list_elem_of_filter).
    rewrite HU in HxU. by apply elem_of_nil in HxU. }
  assert (result ⊆+ operators) as Hsub' by (by apply NoDup_submseteq).
  apply submseteq_length in Hsub, Hsub'. lia.
Qed.

(** X6: cycle detection is exact on operator sets whose lists repeat no
    operator of the set: the sequencer returns an order exactly when the
    restricted dependency relation has no cycle. *)
Theorem X6_order_exists_iff_acyclic (operators : list string) (dependencies : depMap) :
  NoDup operators →
  (∀ a, a ∈ operators → NoDup (innerDeps operators dependencies a)) →
  (∃ sorted, TopologicalSort operators dependencies = Some (sorted, None)) ↔
  ¬ hasCycle operators dependencies.
Proof.
  intros Hnd Hinner. split.
  - intros [sorted Hrun] Hcyc.
    rewrite (TopologicalSort_cycle operators dependencies Hnd Hcyc) in Hrun. done.
  - by apply TopologicalSort_acyclic.
Qed.

Lemma X6_order_exists_iff_acyclic_witness :
  NoDup ["A"; "B"; "C"] ∧
  (∀ a, a ∈ ["A"; "B"; "C"] → NoDup (innerDeps ["A"; "B"; "C"] chainExpanded a)) ∧
  ((∃ sorted, TopologicalSort ["A"; "B"; "C"] chainExpanded = Some (sorted, None)) ↔
   ¬ hasCycle ["A"; "B"; "C"] chainExpanded).
Proof.
  assert (NoDup ["A"; "B"; "C"]) as Hnd by by_compute.
  assert (∀ a, a ∈ ["A"; "B"; "C"] → NoDup (innerDeps ["A"; "B"; "C"] chainExpanded a))
    as Hinner.
  { intros a Ha. apply NoDup_filter.
    destruct (expanded_sorted elementsOrder chainDeps chainExpanded a
                chainExpanded_expands) as [_ ?]. done. }
  split; [exact Hnd|]. split; [exact Hinner|].
  exact (X6_order_exists_iff_acyclic ["A"; "B"; "C"] chainExpanded Hnd Hinner).
Defined.

Lemma hasCycle_expanded (ord : MapOrder) (manualDeps finalDeps : depMap) :
  expandDependencies ord manualDeps = Some finalDeps →
  hasCycle (coreOperatorsOf ord finalDeps) finalDeps ↔
  ∃ a, tc (dependsOn manualDeps) a a.
Proof.
  intros Hexp. split.
  - intros [a Ha]. exists a.
    assert (∀ x y, tc (restrictedDep (coreOperatorsOf ord finalDeps) finalDeps) x y →
                   tc (dependsOn manualDeps) x y) as Hinto.
    { induction 1 as [x y (_ & _ & Hxy)|x y z (_ & _ & Hxy) _ IH].
      - by apply (elem_of_expanded ord manualDeps finalDeps).
      - etrans; [|exact IH]. by apply (elem_of_expanded ord manualDeps finalDeps). }
    by apply Hinto.
  - intros [a Ha]. exists a. apply tc_once.
    assert (a ∈ coreOperatorsOf ord finalDeps) as Hcore.
    { apply elem_of_coreOperatorsOf.
      rewrite (dom_expandDependencies ord manualDeps finalDeps Hexp).
      apply elem_of_coreSetOf. left. by eapply tc_first_is_key. }
    split; [done|]. split; [done|].
    by apply (elem_of_expanded ord manualDeps finalDeps).
Qed.

Lemma operatorStage_completes_iff lib ord manualDeps obj suite :
  (∃ r, operatorStage lib ord manualDeps obj suite = Some (Some r)) ↔ acyclic manualDeps.
Proof.
  destruct (expandDependencies_lookup ord manualDeps) as (finalDeps & Hexp & _).
  pose proof (NoDup_coreOperatorsOf ord finalDeps) as Hnd.
  split.
  - intros [[suite' failed] (fd & sorted & Hexp' & Hsort & _)%operatorStage_completed].
    assert (fd = finalDeps) as -> by congruence.
    intros a Ha.
    assert (hasCycle (coreOperatorsOf ord finalDeps) finalDeps) as Hcyc.
    { apply (hasCycle_expanded ord manualDeps finalDeps Hexp). by exists a. }
    rewrite (TopologicalSort_cycle _ _ Hnd Hcyc) in Hsort. done.
  - intros Hacyc.
    destruct (TopologicalSort_acyclic (coreOperatorsOf ord finalDeps) finalDeps Hnd)
      as [sorted Hsort].
    + intros a _. apply NoDup_filter.
      by destruct (expanded_sorted ord manualDeps finalDeps a Hexp).
    + intros [a Ha]%(hasCycle_expanded ord manualDeps finalDeps Hexp).
      by apply (Hacyc a).
    + eexists. by apply (operatorStage_run lib ord manualDeps obj suite finalDeps sorted).
Qed.

(** X7: a run always returns; it reaches its end and reports exactly when
    listing the cluster operators succeeded and no operator of the direct
    dependency map is on a cycle.  Otherwise it returns early with nothing
    reported. *)
Theorem X7_run_reports_iff_listed_and_acyclic lib ord opt manualDeps start cluster :
  (Run lib ord opt manualDeps start cluster = Some None ∨
   ∃ effects, Run lib ord opt manualDeps start cluster = Some (Some effects)) ∧
  ((∃ effects, Run lib ord opt manualDeps start cluster = Some (Some effects)) ↔
   clusterOperatorsErr cluster = None ∧ acyclic manualDeps).
Proof.
  unfold Run.
  set (suite0 := checkMachineNodeConsistency lib (machineList cluster)
                   (machineErr cluster) (nodeItems cluster) (nodeErr cluster) emptySuite).
  pose proof (operatorStage_completes_iff lib ord manualDeps
                (clusterOperatorsObj cluster) suite0) as Hiff.
  destruct (operatorStage_total lib ord manualDeps (clusterOperatorsObj cluster) suite0)
    as [r Hr].
  destruct (clusterOperatorsErr cluster) as [err|].
  { split; [by left|]. split; [by intros [? ?]|by intros [? _]]. }
  rewrite Hr in *. destruct r as [[suite' failed]|].
  - split; [right; by eexists|]. split.
    + intros _. split; [done|]. apply Hiff. by eexists.
    + intros _. by eexists.
  - split; [by left|]. split; [by intros [? ?]|].
    intros [_ Hacyc]. apply Hiff in Hacyc as [? ?]. done.
Qed.

(** ** Every operator's outcome in a completed run *)

(** A completed run seen from each entry of the list it walked: the
    failure set at the time the entry was evaluated agrees with the final
    one on the entry's expanded dependencies. *)
Lemma evaluation_of lib ord manualDeps obj suite suite' failed :
  operatorStage lib ord manualDeps obj suite = Some (Some (suite', failed)) →
  ∃ finalDeps sorted extras tcs,
    expandDependencies ord manualDeps = Some finalDeps ∧
    sorted ≡ₚ coreOperatorsOf ord finalDeps ∧
    (∀ a b, a ∈ sorted → b ∈ depsOf finalDeps a → appearsBefore sorted b a) ∧
    (∀ n, n ∈ extras ↔ n ∈ dom (operatorsMapOf lib obj) ∧ n ∉ sorted) ∧
    NoDup (sorted ++ extras) ∧
    TestCases suite' = TestCases suite ++ tcs ∧
    tc_Name <$> tcs = tcNameOf <$> (sorted ++ extras) ∧
    ∀ X, X ∈ sorted ++ extras →
      ∃ suite1 F1 tc,
        (∀ d, d ∈ depsOf finalDeps X → d ∈ failed ↔ d ∈ F1) ∧
        (X ∉ F1) ∧
        operatorCases tcs X = [tc] ∧
        TestCases (checkOperator lib finalDeps (suite1, F1)
                     (itemOf (operatorsMapOf lib obj) X)).1 = TestCases suite1 ++ [tc] ∧
        (X ∈ failed ↔
         X ∈ (checkOperator lib finalDeps (suite1, F1) (itemOf (operatorsMapOf lib obj) X)).2).
Proof.
  intros (finalDeps & sorted & Hexp & Hsort & Hcheck)%operatorStage_completed.
  destruct (TopologicalSort_sorted _ _ (NoDup_coreOperatorsOf ord finalDeps) _ Hsort)
    as (Hperm & Hnds & Horder).
  destruct (finalOperatorsOf_spec ord sorted (operatorsMapOf lib obj) Hnds)
    as (extras & Hfinal & Hnd & Hextras & _).
  rewrite Hfinal in Hcheck.
  destruct (checkOperators_shape lib finalDeps
              (itemOf (operatorsMapOf lib obj) <$> (sorted ++ extras)) suite ∅)
    as (tcs & Htcs & Hnames & _ & _).
  fold (checkOperators lib finalDeps
          (itemOf (operatorsMapOf lib obj) <$> (sorted ++ extras)) suite) in Htcs.
  rewrite Hcheck in Htcs. simpl in Htcs. rewrite <- list_fmap_compose in Hnames.
  assert (∀ a b, a ∈ sorted → b ∈ depsOf finalDeps a → appearsBefore sorted b a)
    as Horder'.
  { intros a b Ha Hb. apply Horder; [by rewrite <- Hperm|done|].
    apply elem_of_coreOperatorsOf. by eapply expanded_within_domain. }
  exists finalDeps, sorted, extras, tcs.
  split; [done|]. split; [done|]. split; [done|]. split; [done|]. split; [done|].
  split; [done|]. split; [done|]. clear Hnames Hextras.
  assert (∀ i x, sorted !! i = Some x → (sorted ++ extras) !! i = Some x) as Hlift.
  { intros i x Hi. by apply lookup_app_l_Some. }
  remember (sorted ++ extras) as names eqn:Hn. clear Hn.
  intros X HX.
  apply list_elem_of_split in HX as (pre & post & Hsplit).
  assert (∀ d, d ∈ depsOf finalDeps X → d ∈ pre) as Hpre.
  { intros d Hd.
    assert (X ∈ sorted) as HXs.
    { destruct (decide (X ∈ sorted)) as [|HXn]; [done|]. exfalso.
      unfold depsOf in Hd. destruct (finalDeps !! X) as [l|] eqn:Hl;
        [|by apply elem_of_nil in Hd].
      apply HXn. rewrite Hperm. apply elem_of_coreOperatorsOf, elem_of_dom. by eexists. }
    destruct (Horder' X d HXs Hd) as (i & j & Hi & Hj & Hij).
    assert (names !! j = Some X) as HjX by (by apply Hlift).
    assert (names !! i = Some d) as Hid by (by apply Hlift).
    assert (j = length pre) as ->.
    { apply (NoDup_lookup names j (length pre) X); [done|done|].
      rewrite Hsplit. by apply list_lookup_middle. }
    rewrite Hsplit in Hid. rewrite lookup_app_l in Hid by done.
    by eapply list_elem_of_lookup_2. }
  rewrite Hsplit in Hnd, Hcheck.
  destruct (checkOperators_at lib finalDeps (operatorsMapOf lib obj) pre post X suite Hnd)
    as (Hsub1 & Hsub2 & Hback & HXiff & tcs' & tc & Htcs' & Htc & Hcases).
  rewrite Hcheck in Hsub2, Hback, HXiff, Htcs'. simpl in Hsub2, Hback, HXiff, Htcs'.
  assert (tcs' = tcs) as -> by (rewrite Htcs in Htcs'; by apply (inj (app _)) in Htcs').
  set (st1 := foldl (checkOperator lib finalDeps) (suite, ∅)
                (itemOf (operatorsMapOf lib obj) <$> pre)) in *.
  exists st1.1, st1.2, tc. rewrite <- surjective_pairing.
  split; [|split; [|done]].
  - intros d Hd. split; [|by apply Hsub2]. apply Hback. by apply Hpre.
  - intros HX%Hsub1%elem_of_list_to_set. apply NoDup_app in Hnd as (_ & Hdisj & _).
    apply (Hdisj X HX). apply elem_of_cons. by left.
Qed.

Lemma names_of_run (ord : MapOrder) (finalDeps : depMap) (m : gmap string objxMap)
    (sorted extras : list string) (X : string) :
  sorted ≡ₚ coreOperatorsOf ord finalDeps →
  (∀ n, n ∈ extras ↔ n ∈ dom m ∧ n ∉ sorted) →
  X ∈ sorted ++ extras ↔ X ∈ dom finalDeps ∪ dom m.
Proof.
  intros Hperm Hextras. rewrite elem_of_app, elem_of_union, Hextras, Hperm.
  rewrite elem_of_coreOperatorsOf.
  destruct (decide (X ∈ dom finalDeps)); tauto.
Qed.

(** X8: in a completed run every operator of the dependency map's domain
    and every operator the cluster lists gets exactly one test case, no
    other name gets any, and the stage adds as many test cases as there
    are such operators. *)
Theorem X8_one_test_case_per_operator lib ord manualDeps finalDeps obj suite suite' failed :
  operatorStage lib ord manualDeps obj suite = Some (Some (suite', failed)) →
  expandDependencies ord manualDeps = Some finalDeps →
  ∃ tcs,
    TestCases suite' = TestCases suite ++ tcs ∧
    length tcs = size (dom finalDeps ∪ dom (operatorsMapOf lib obj)) ∧
    ∀ X,
      (X ∈ dom finalDeps ∪ dom (operatorsMapOf lib obj) → ∃ tc, operatorCases tcs X = [tc]) ∧
      (X ∉ dom finalDeps ∪ dom (operatorsMapOf lib obj) → operatorCases tcs X = []).
Proof.
  intros Hrun Hexp.
  destruct (evaluation_of lib ord manualDeps obj suite suite' failed Hrun)
    as (fd & sorted & extras & tcs & Hexp' & Hperm & _ & Hextras & Hnd & Htcs & Hnames
        & Heach).
  assert (fd = finalDeps) as -> by congruence.
  pose proof (names_of_run ord finalDeps (operatorsMapOf lib obj) sorted extras) as Hin.
  exists tcs. split; [done|]. split.
  - rewrite <- (length_fmap tc_Name), Hnames, length_fmap.
    unfold size, set_size. simpl. apply Permutation_length.
    apply NoDup_Permutation; [done|apply NoDup_elements|].
    intros X. rewrite elem_of_elements. by apply Hin.
  - intros X. split.
    + intros HX%Hin; [|done..]. destruct (Heach X HX) as (_ & _ & tc & _ & _ & Htc & _).
      by exists tc.
    + intros HX. apply (operatorCases_other tcs (sorted ++ extras)); [done|].
      intros Hn. apply HX. by apply Hin.
Qed.

Lemma X8_one_test_case_per_operator_witness :
  operatorStage sampleLib elementsOrder chainDeps extraCluster emptySuite
    = Some (Some (extraRun.1, extraRun.2)) ∧
  expandDependencies elementsOrder chainDeps = Some chainExpanded ∧
  ∃ tcs,
    TestCases extraRun.1 = TestCases emptySuite ++ tcs ∧
    length tcs = size (dom chainExpanded ∪ dom (operatorsMapOf sampleLib extraCluster)) ∧
    ∀ X,
      (X ∈ dom chainExpanded ∪ dom (operatorsMapOf sampleLib extraCluster) →
       ∃ tc, operatorCases tcs X = [tc]) ∧
      (X ∉ dom chainExpanded ∪ dom (operatorsMapOf sampleLib extraCluster) →
       operatorCases tcs X = []).
Proof.
  split; [exact extraRun_completes|]. split; [exact chainExpanded_expands|].
  exact (X8_one_test_case_per_operator sampleLib elementsOrder chainDeps chainExpanded
           extraCluster emptySuite extraRun.1 extraRun.2 extraRun_completes
           chainExpanded_expands).
Defined.

(** X9: an operator of the dependency map's domain that the cluster does
    not list is reported Skipped with the not-found message and does not
    enter the failure set, so it blocks none of its dependents. *)
Theorem X9_not_found_is_not_failure lib ord manualDeps finalDeps obj suite suite' failed X :
  operatorStage lib ord manualDeps obj suite = Some (Some (suite', failed)) →
  expandDependencies ord manualDeps = Some finalDeps →
  X ∈ dom finalDeps →
  operatorsMapOf lib obj !! X = None →
  (X ∉ failed) ∧
  ∃ tcs,
    TestCases suite' = TestCases suite ++ tcs ∧
    operatorCases tcs X = [tcSkipped (tcNameOf X) (notFoundMsg lib X)].
Proof.
  intros Hrun Hexp HX Hnone.
  destruct (evaluation_of lib ord manualDeps obj suite suite' failed Hrun)
    as (fd & sorted & extras & tcs & Hexp' & Hperm & _ & Hextras & Hnd & Htcs & Hnames
        & Heach).
  assert (fd = finalDeps) as -> by congruence.
  assert (X ∈ sorted ++ extras) as HXn.
  { apply (names_of_run ord finalDeps (operatorsMapOf lib obj)); [done..|].
    apply elem_of_union. by left. }
  destruct (Heach X HXn) as (suite1 & F1 & tc & _ & HXF1 & Hcases & Htc & Hiff).
  unfold itemOf in Htc, Hiff. rewrite Hnone in Htc, Hiff.
  rewrite checkOperator_notFound in Htc, Hiff. cbn [fst snd] in Htc, Hiff.
  rewrite tcAppend_skipped in Htc by done. apply (inj (app _)) in Htc.
  split; [by rewrite Hiff|]. exists tcs. split; [done|]. congruence.
Qed.

Lemma X9_not_found_is_not_failure_witness :
  operatorStage sampleLib elementsOrder chainDeps chainClusterWithoutB emptySuite
    = Some (Some (chainRunWithoutB.1, chainRunWithoutB.2)) ∧
  expandDependencies elementsOrder chainDeps = Some chainExpanded ∧
  "B" ∈ dom chainExpanded ∧
  operatorsMapOf sampleLib chainClusterWithoutB !! "B" = None ∧
  ("B" ∉ chainRunWithoutB.2) ∧
  ∃ tcs,
    TestCases chainRunWithoutB.1 = TestCases emptySuite ++ tcs ∧
    operatorCases tcs "B" = [tcSkipped (tcNameOf "B") (notFoundMsg sampleLib "B")].
Proof.
  assert (operatorStage sampleLib elementsOrder chainDeps chainClusterWithoutB emptySuite
          = Some (Some (chainRunWithoutB.1, chainRunWithoutB.2))) as Hrun
    by (by vm_compute).
  assert ("B" ∈ dom chainExpanded) as HB by by_compute.
  assert (operatorsMapOf sampleLib chainClusterWithoutB !! "B" = None) as Hnone by (by vm_compute).
  split; [exact Hrun|]. split; [exact chainExpanded_expands|].
  split; [exact HB|]. split; [exact Hnone|].
  exact (X9_not_found_is_not_failure sampleLib elementsOrder chainDeps chainExpanded
           chainClusterWithoutB emptySuite chainRunWithoutB.1 chainRunWithoutB.2 "B"
           Hrun chainExpanded_expands HB Hnone).
Defined.




(** In that run B, whose one dependency passed, fails on its own Degraded
    status. *)
Example dependent_fails_on_its_own :
  ¬ conditionsGood sampleLib degradedB ∧ healthyHeadRun.2 = {["B"]}.
Proof. split; by_compute. Qed.

(** X11: when a run completes, the failure set holds exactly the
    operators whose single test case is a Failed one: a skipped or passed
    operator is never in it, a failed one always is. *)
Theorem X11_failure_set_is_the_failed_cases lib ord manualDeps obj suite suite' failed :
  operatorStage lib ord manualDeps obj suite = Some (Some (suite', failed)) →
  ∃ tcs,
    TestCases suite' = TestCases suite ++ tcs ∧
    ∀ A, A ∈ failed ↔ ∃ msg, operatorCases tcs A = [tcFailed (tcNameOf A) msg].
Proof. apply failure_set_reported. Qed.

Lemma X11_failure_set_is_the_failed_cases_witness :
  operatorStage sampleLib elementsOrder chainDeps chainCluster emptySuite
    = Some (Some (chainRun.1, chainRun.2)) ∧
  ∃ tcs,
    TestCases chainRun.1 = TestCases emptySuite ++ tcs ∧
    ∀ A, A ∈ chainRun.2 ↔ ∃ msg, operatorCases tcs A = [tcFailed (tcNameOf A) msg].
Proof.
  split; [exact chainRun_completes|].
  exact (X11_failure_set_is_the_failed_cases sampleLib elementsOrder chainDeps
           chainCluster emptySuite chainRun.1 chainRun.2 chainRun_completes).
Defined.

(** X12: the operator stage reports in this order: first the operators of
    the dependency map's domain, each after all the operators of its
    expanded list, then the operators the cluster lists outside the
    domain. *)
Theorem X12_report_follows_dependency_order lib ord manualDeps finalDeps obj
    suite suite' failed :
  operatorStage lib ord manualDeps obj suite = Some (Some (suite', failed)) →
  expandDependencies ord manualDeps = Some finalDeps →
  ∃ sorted extras tcs,
    TestCases suite' = TestCases suite ++ tcs ∧
    tc_Name <$> tcs = tcNameOf <$> (sorted ++ extras) ∧
    (∀ X, X ∈ sorted ↔ X ∈ dom finalDeps) ∧
    (∀ X, X ∈ extras ↔ X ∈ dom (operatorsMapOf lib obj) ∧ X ∉ dom finalDeps) ∧
    ∀ a b, a ∈ sorted → b ∈ depsOf finalDeps a → appearsBefore sorted b a.
Proof.
  intros Hrun Hexp.
  destruct (evaluation_of lib ord manualDeps obj suite suite' failed Hrun)
    as (fd & sorted & extras & tcs & Hexp' & Hperm & Horder & Hextras & Hnd & Htcs
        & Hnames & _).
  assert (fd = finalDeps) as -> by congruence.
  assert (∀ X, X ∈ sorted ↔ X ∈ dom finalDeps) as Hsorted.
  { intros X. by rewrite Hperm, elem_of_coreOperatorsOf. }
  exists sorted, extras, tcs. split; [done|]. split; [done|]. split; [done|].
  split; [|done]. intros X. by rewrite Hextras, Hsorted.
Qed.

Lemma X12_report_follows_dependency_order_witness :
  operatorStage sampleLib elementsOrder chainDeps chainCluster emptySuite
    = Some (Some (chainRun.1, chainRun.2)) ∧
  expandDependencies elementsOrder chainDeps = Some chainExpanded ∧
  ∃ sorted extras tcs,
    TestCases chainRun.1 = TestCases emptySuite ++ tcs ∧
    tc_Name <$> tcs = tcNameOf <$> (sorted ++ extras) ∧
    (∀ X, X ∈ sorted ↔ X ∈ dom chainExpanded) ∧
    (∀ X, X ∈ extras ↔ X ∈ dom (operatorsMapOf sampleLib chainCluster) ∧ X ∉ dom chainExpanded) ∧
    ∀ a b, a ∈ sorted → b ∈ depsOf chainExpanded a → appearsBefore sorted b a.
Proof.
  split; [exact chainRun_completes|]. split; [exact chainExpanded_expands|].
  exact (X12_report_follows_dependency_order sampleLib elementsOrder chainDeps
           chainExpanded chainCluster emptySuite chainRun.1 chainRun.2
           chainRun_completes chainExpanded_expands).
Defined.



(** ** The machine and node checks *)

Lemma scanMachines_fold lib (items : list Machine) :
  ∀ count notes,
    foldl (λ '(runningMachineCount, notRunningMachines) machine,
             let phase := machine_phase machine in
             if decide (strings_ToLower lib phase = "running")
             then (S runningMachineCount, notRunningMachines)
             else (runningMachineCount,
                   notRunningMachines ++
                     [ "Machine " +:+ fmt_q lib (machine_Name machine)
                         +:+ " is in " +:+ fmt_q lib phase +:+ " state" ]))
      (count, notes) items
    = (count + length (filter (machineRunning lib) items),
       notes ++ (notRunningNote lib <$>
                   filter (λ machine, ¬ machineRunning lib machine) items)).
Proof.
  induction items as [|m items IH]; intros count notes; cbn [foldl].
  - rewrite !filter_nil, fmap_nil, (right_id_L [] (++)). simpl. f_equal. lia.
  - destruct (decide (strings_ToLower lib (machine_phase m) = "running")) as [Hr|Hr].
    + rewrite IH. rewrite (filter_cons_True (machineRunning lib)) by done.
      rewrite filter_cons_False by (intros Hn; by apply Hn). simpl. f_equal. lia.
    + rewrite IH. rewrite (filter_cons_False (machineRunning lib)) by done.
      rewrite filter_cons_True by done. rewrite fmap_cons, <- (assoc_L (++)). done.
Qed.

Lemma scanMachines_spec lib (items : list Machine) :
  scanMachines lib items
  = (length (filter (machineRunning lib) items),
     notRunningNote lib <$> filter (λ machine, ¬ machineRunning lib machine) items).
Proof. unfold scanMachines. by rewrite scanMachines_fold. Qed.

Lemma getUnready_fold (allNodes : list Node) :
  ∀ names,
    foldl (λ badNodeNames node,
             if negb (node_schedulable node) then badNodeNames ++ [node_Name node]
             else badNodeNames) names allNodes
    = names ++ (node_Name <$> unschedulable allNodes).
Proof.
  unfold unschedulable.
  induction allNodes as [|n nodes IH]; intros names; cbn [foldl].
  - by rewrite filter_nil, fmap_nil, (right_id_L [] (++)).
  - rewrite IH. destruct (node_schedulable n) eqn:Hs; simpl.
    + rewrite filter_cons_False by (by rewrite Hs). done.
    + rewrite filter_cons_True by done. by rewrite fmap_cons, <- (assoc_L (++)).
Qed.

Lemma getUnready_spec (allNodes : list Node) :
  getUnreadyOrUnschedulableNodeNames allNodes = node_Name <$> unschedulable allNodes.
Proof. unfold getUnreadyOrUnschedulableNodeNames. by rewrite getUnready_fold. Qed.

Lemma schedulable_count (nodes : list Node) :
  length (schedulable nodes) + length (unschedulable nodes) = length nodes.
Proof.
  unfold schedulable, unschedulable. induction nodes as [|n nodes IH]; [done|].
  destruct (node_schedulable n) eqn:Hs.
  - rewrite filter_cons_True by done. rewrite filter_cons_False by (by rewrite Hs).
    simpl. lia.
  - rewrite filter_cons_False by (by rewrite Hs). rewrite filter_cons_True by done.
    simpl. lia.
Qed.

Lemma append_nonempty (s t : string) : s ≠ "" → s +:+ t ≠ "".
Proof. destruct s; [done|]. by intros _. Qed.

Lemma foldl_nonempty {A} (f : string → A → string) (l : list A) (s : string) :
  (∀ s x, s ≠ "" → f s x ≠ "") → s ≠ "" → foldl f s l ≠ "".
Proof.
  intros Hf. revert s. induction l as [|x l IH]; intros s Hs; [done|].
  simpl. apply IH. by apply Hf.
Qed.

(** The machine part of the check: what it appends and the count it
    hands to the node part. *)
Lemma machines_part lib machineList suite :
  (let '(suite, runningMachineCount) :=
     match machineList with
     | Some (m :: ms) =>
         let items := m :: ms in
         let '(runningMachineCount, notRunningMachines) := scanMachines lib items in
         if decide (length notRunningMachines = 0)
         then (tcAppend suite machinesTcName "" "", runningMachineCount)
         else
           let message :=
             "Found " +:+ pretty (length notRunningMachines) +:+ " out of "
               +:+ pretty (length items) +:+ " Machines not in Running state: "
               +:+ joinStrings notRunningMachines " " in
           (tcAppend suite machinesTcName message "", runningMachineCount)
     | _ => (tcAppend suite machinesTcName "" noMachinesMsg, 0)
     end in
   (TestCases suite, runningMachineCount))
  = (TestCases suite ++ [machinesCase lib machineList],
     length (runningMachines lib machineList)).
Proof.
  unfold machinesCase, runningMachines.
  destruct machineList as [[|m ms]|]; simpl default.
  - by rewrite tcAppend_skipped.
  - rewrite scanMachines_spec. rewrite length_fmap.
    set (bad := filter (λ machine, ¬ machineRunning lib machine) (m :: ms)).
    destruct (decide (length bad = 0)) as [Hz|Hnz].
    + rewrite decide_True by (by apply length_zero_iff_nil).
      by rewrite tcAppend_passed.
    + rewrite decide_False by (intros Hb; by rewrite Hb in Hnz).
      by rewrite tcAppend_failed.
  - by rewrite tcAppend_skipped.
Qed.

(** The check as a whole: the cases it appends, in order. *)
Lemma consistency_cases lib machineList machineErr nodeItems nodeErr suite :
  ∃ countMsg,
    TestCases
      (checkMachineNodeConsistency lib machineList machineErr nodeItems nodeErr suite)
    = TestCases suite
      ++ match machineErr with
         | Some err => [tcFailed machinesTcName (listMachinesErrMsg err)]
         | None => []
         end
      ++ [machinesCase lib machineList]
      ++ match nodeErr with
         | Some err => [tcFailed nodesTcName ("Failed to list nodes: " +:+ err +:+ ".")]
         | None =>
             [ nodesCase nodeItems;
               if decide (length (runningMachines lib machineList)
                          ≤ length (schedulable nodeItems))
               then tcPassed countTcName
               else tcFailed countTcName countMsg ]
         end.
Proof.
  unfold checkMachineNodeConsistency.
  set (suite0 := match machineErr with
                 | Some err => tcAppend suite machinesTcName (listMachinesErrMsg err) ""
                 | None => suite
                 end).
  assert (TestCases suite0
          = TestCases suite
            ++ match machineErr with
               | Some err => [tcFailed machinesTcName (listMachinesErrMsg err)]
               | None => []
               end) as H0.
  { unfold suite0. destruct machineErr as [err|].
    - by rewrite tcAppend_failed.
    - by rewrite (right_id_L [] (++)). }
  pose proof (machines_part lib machineList suite0) as Hm.
  match goal with
  | |- context [let '(s, c) := ?M in _] => destruct M as [suite1 count] eqn:HM
  end.
  simplify_eq. rename select (TestCases suite1 = _) into H1.
  destruct nodeErr as [err|].
  - exists "". rewrite tcAppend_failed by done. rewrite H1, H0.
    by rewrite <- !(assoc_L (++)).
  - cbv zeta. rewrite getUnready_spec, length_fmap.
    pose proof (schedulable_count nodeItems) as Hcount.
    set (suite2 := if decide (length (unschedulable nodeItems) = 0)
                   then tcAppend suite1 nodesTcName "" "" else _).
    assert (TestCases suite2 = TestCases suite1 ++ [nodesCase nodeItems]) as H2.
    { unfold suite2, nodesCase.
      destruct (decide (length (unschedulable nodeItems) = 0)) as [Hz|Hnz].
      - rewrite decide_True by (by apply length_zero_iff_nil). by rewrite tcAppend_passed.
      - rewrite decide_False by (intros Hb; by rewrite Hb in Hnz).
        by rewrite tcAppend_failed. }
    match goal with
    | |- context [tcAppend suite2 countTcName (foldl ?f ?s ?l) ""] =>
        exists (foldl f s l); assert (foldl f s l ≠ "") as Hmsg
    end.
    { apply foldl_nonempty; [|apply append_nonempty].
      - intros s m Hs. case_decide; [by apply append_nonempty|done].
      - apply foldl_nonempty; [|done].
        intros s n Hs. destruct (node_schedulable n); [by apply append_nonempty|done]. }
    destruct (decide (_ ≤ _)%Z) as [Hle|Hgt].
    + rewrite decide_True by lia. rewrite tcAppend_passed, H2, H1, H0.
      by rewrite <- !(assoc_L (++)).
    + rewrite decide_False by lia. rewrite tcAppend_failed by done.
      rewrite H2, H1, H0. by rewrite <- !(assoc_L (++)).
Qed.

(** X14: the machine and node check appends, in this order: a Failed case
    when the machines could not be listed; the machines case (Skipped when
    the list is nil or empty, Passed when every machine is Running, Failed
    otherwise); then, when the nodes could not be listed, one Failed nodes
    case and nothing more; otherwise the nodes case (Passed when no node is
    unschedulable) followed by the count case, which is Passed exactly
    when the Running machines are no more than the schedulable nodes. *)
Theorem X14_consistency_check_cases lib machineList machineErr nodeItems nodeErr suite :
  ∃ countMsg,
    TestCases
      (checkMachineNodeConsistency lib machineList machineErr nodeItems nodeErr suite)
    = TestCases suite
      ++ match machineErr with
         | Some err => [tcFailed machinesTcName (listMachinesErrMsg err)]
         | None => []
         end
      ++ [machinesCase lib machineList]
      ++ match nodeErr with
         | Some err => [tcFailed nodesTcName ("Failed to list nodes: " +:+ err +:+ ".")]
         | None =>
             [ nodesCase nodeItems;
               if decide (length (runningMachines lib machineList)
                          ≤ length (schedulable nodeItems))
               then tcPassed countTcName
               else tcFailed countTcName countMsg ]
         end.
Proof. apply consistency_cases. Qed.

(** X15: with a nil or empty machine list and the nodes listed, the check
    ends with a Skipped machines case, the nodes case and a Passed count
    case: no machine counts as Running, whatever the nodes are. *)
Theorem X15_no_machines_passes_count_check lib machineList machineErr nodeItems suite :
  machineList = None ∨ machineList = Some [] →
  ∃ front,
    TestCases (checkMachineNodeConsistency lib machineList machineErr nodeItems None suite)
    = front ++ [ tcSkipped machinesTcName noMachinesMsg; nodesCase nodeItems;
                 tcPassed countTcName ].
Proof.
  intros Hnone.
  destruct (consistency_cases lib machineList machineErr nodeItems None suite)
    as [msg ->].
  exists (TestCases suite
            ++ match machineErr with
               | Some err => [tcFailed machinesTcName (listMachinesErrMsg err)]
               | None => []
               end).
  rewrite <- (assoc_L (++)). do 2 f_equal.
  assert (runningMachines lib machineList = []) as ->
    by (by destruct Hnone as [-> | ->]).
  rewrite decide_True by (simpl; lia).
  by destruct Hnone as [-> | ->].
Qed.

Lemma X15_no_machines_passes_count_check_witness :
  ∃ front,
    TestCases (checkMachineNodeConsistency sampleLib None (Some "connection refused")
                 sampleNodes None emptySuite)
    = front ++ [ tcSkipped machinesTcName noMachinesMsg; nodesCase sampleNodes;
                 tcPassed countTcName ].
Proof.
  apply (X15_no_machines_passes_count_check sampleLib None (Some "connection refused")
           sampleNodes emptySuite).
  by left.
Defined.

Lemma machinesCase_name lib machineList :
  tc_Name (machinesCase lib machineList) = machinesTcName.
Proof. unfold machinesCase. destruct machineList as [[|m ms]|]; [done| |done]. by case_decide. Qed.

(** X16: when the nodes cannot be listed, the check ends with one Failed
    nodes case carrying the error; what it added before it are machines
    cases only, so no count case is recorded. *)
Theorem X16_node_fetch_failure_ends_the_check lib machineList machineErr nodeItems err suite :
  ∃ front,
    TestCases
      (checkMachineNodeConsistency lib machineList machineErr nodeItems (Some err) suite)
    = TestCases suite ++ front
        ++ [tcFailed nodesTcName ("Failed to list nodes: " +:+ err +:+ ".")] ∧
    ∀ tc, tc ∈ front → tc_Name tc = machinesTcName.
Proof.
  destruct (consistency_cases lib machineList machineErr nodeItems (Some err) suite)
    as [msg ->].
  exists (match machineErr with
          | Some err => [tcFailed machinesTcName (listMachinesErrMsg err)]
          | None => []
          end ++ [machinesCase lib machineList]).
  split; [by rewrite <- !(assoc_L (++))|].
  intros tc [Htc|Htc]%elem_of_app.
  - destruct machineErr; [|by apply elem_of_nil in Htc].
    by apply list_elem_of_singleton in Htc as ->.
  - apply list_elem_of_singleton in Htc as ->. apply machinesCase_name.
Qed.

(** One Running machine out of two and one schedulable node out of two:
    the machines and the nodes cases fail, the count case passes. *)
Example sample_consistency_check :
  TestCases (checkMachineNodeConsistency sampleLib (Some sampleMachines) None
               sampleNodes None emptySuite)
    = [ machinesCase sampleLib (Some sampleMachines); nodesCase sampleNodes;
        tcPassed countTcName ] ∧
  is_Some (tc_FailureOutput (machinesCase sampleLib (Some sampleMachines))) ∧
  is_Some (tc_FailureOutput (nodesCase sampleNodes)).
Proof. split; [by vm_compute|]. split; by eexists. Qed.

(** ** The counters of the report *)

Lemma uint_incr_of_len {A} (l : list A) (x : A) :
  uint_incr (uint_of_len l) = uint_of_len (l ++ [x]).
Proof.
  unfold uint_incr, uint_of_len. rewrite length_app, Nat2N.inj_add.
  change (N.of_nat (length [x])) with 1%N.
  by rewrite N.Div0.add_mod_idemp_l.
Qed.

Lemma failedCases_snoc (l : list JUnitTestCase) (tc : JUnitTestCase) :
  failedCases (l ++ [tc])
  = failedCases l ++ (if tc_FailureOutput tc is Some _ then [tc] else []).
Proof.
  unfold failedCases. rewrite filter_app. f_equal.
  destruct tc as [n [f|] k]; reflexivity.
Qed.

Lemma skippedCases_snoc (l : list JUnitTestCase) (tc : JUnitTestCase) :
  skippedCases (l ++ [tc])
  = skippedCases l ++ (if tc_SkipMessage tc is Some _ then [tc] else []).
Proof.
  unfold skippedCases. rewrite filter_app. f_equal.
  destruct tc as [n f [k|]]; reflexivity.
Qed.

Lemma tcAppend_counters suite name failureMsg skipMsg :
  countersAgree suite → countersAgree (tcAppend suite name failureMsg skipMsg).
Proof.
  intros (Hf & Hs & Hx). unfold countersAgree, tcAppend.
  repeat case_decide; cbn [NumFailed NumSkipped TestCases];
    rewrite failedCases_snoc, skippedCases_snoc;
    cbn [tc_FailureOutput tc_SkipMessage];
    rewrite ?(right_id_L [] (++)), <- ?uint_incr_of_len, Hf, Hs;
    (split; [done|]); (split; [done|]);
    (apply Forall_app; split; [done|]); apply Forall_singleton; cbn; auto.
Qed.

Lemma tcAppend_header suite name failureMsg skipMsg :
  suite_Name (tcAppend suite name failureMsg skipMsg) = suite_Name suite ∧
  NumTests (tcAppend suite name failureMsg skipMsg) = NumTests suite.
Proof. unfold tcAppend. by repeat case_decide. Qed.

Lemma grownFrom_trans s1 s2 s3 : grownFrom s1 s2 → grownFrom s2 s3 → grownFrom s1 s3.
Proof. intros H12 H23. induction H23; [done|]. by constructor. Qed.

Lemma grownFrom_tcAppend suite name failureMsg skipMsg :
  grownFrom suite (tcAppend suite name failureMsg skipMsg).
Proof. constructor. constructor. Qed.

Lemma grownFrom_keeps suite suite' :
  grownFrom suite suite' →
  (countersAgree suite → countersAgree suite') ∧
  suite_Name suite' = suite_Name suite ∧
  NumTests suite' = NumTests suite ∧
  ∃ tcs, TestCases suite' = TestCases suite ++ tcs.
Proof.
  induction 1 as [|suite' name failureMsg skipMsg _ (IHc & IHn & IHt & tcs & IHl)].
  { do 3 (split; [done|]). exists []. by rewrite (right_id_L [] (++)). }
  destruct (tcAppend_header suite' name failureMsg skipMsg) as [Hn Ht].
  destruct (tcAppend_one suite' name failureMsg skipMsg) as [tc Htc].
  split; [intros Hc; by apply tcAppend_counters, IHc|].
  split; [congruence|]. split; [congruence|].
  exists (tcs ++ [tc]). by rewrite Htc, IHl, (assoc_L (++)).
Qed.

Lemma checkOperator_grown lib finalDeps st item :
  grownFrom st.1 (checkOperator lib finalDeps st item).1.
Proof.
  destruct st as [suite failed]. unfold checkOperator. cbv zeta.
  repeat case_decide; apply grownFrom_tcAppend.
Qed.

Lemma checkOperators_grown lib finalDeps items suite :
  grownFrom suite (checkOperators lib finalDeps items suite).1.
Proof.
  unfold checkOperators.
  change suite with ((suite, (∅ : gset string)).1) at 1.
  generalize (suite, (∅ : gset string)). clear suite.
  induction items as [|item items IH]; intros st; [constructor|].
  cbn [foldl]. eapply grownFrom_trans; [apply checkOperator_grown|apply IH].
Qed.

Lemma operatorStage_grown lib ord manualDeps obj suite suite' failed :
  operatorStage lib ord manualDeps obj suite = Some (Some (suite', failed)) →
  grownFrom suite suite'.
Proof.
  unfold operatorStage. intros Hrun.
  destruct (expandDependencies ord manualDeps) as [finalDeps|]; [|done].
  cbv zeta in Hrun.
  destruct (TopologicalSort _ finalDeps) as [[sorted [err|]]|]; [done| |done].
  destruct (consumeCore sorted (operatorsMapOf lib obj)) as [items left].
  simplify_eq.
  match goal with
  | H : checkOperators ?l ?fd ?its ?s = _ |- _ =>
      pose proof (checkOperators_grown l fd its s) as Hg; by rewrite H in Hg
  end.
Qed.

Lemma checkMachineNodeConsistency_grown lib machineList machineErr nodeItems nodeErr suite :
  grownFrom suite
    (checkMachineNodeConsistency lib machineList machineErr nodeItems nodeErr suite).
Proof.
  unfold checkMachineNodeConsistency. cbv zeta.
  assert (∀ s, grownFrom suite s → ∀ n f k, grownFrom suite (tcAppend s n f k)) as Hap
    by (intros; by constructor).
  assert (grownFrom suite
            match machineErr with
            | Some err => tcAppend suite machinesTcName (listMachinesErrMsg err) ""
            | None => suite
            end) as H0.
  { destruct machineErr; [apply grownFrom_tcAppend|constructor]. }
  match goal with
  | |- context [let '(s, c) := ?M in _] => destruct M as [suite1 count] eqn:HM
  end.
  assert (grownFrom suite suite1) as H1.
  { destruct machineList as [[|m ms]|]; simplify_eq; [by apply Hap| |by apply Hap].
    destruct (scanMachines lib (m :: ms)) as [running bad].
    case_decide; simplify_eq; by apply Hap. }
  destruct nodeErr as [err|]; [by apply Hap|].
  repeat case_decide; by repeat apply Hap.
Qed.

(** X17: [tcAppend] adds one case of the given name and keeps the failed
    and skipped counters equal to the number of Failed and Skipped cases
    of the list; a failure message wins over a skip message; the test
    counter is left alone. *)
Theorem X17_tcAppend_keeps_counters suite name failureMsg skipMsg :
  countersAgree suite →
  countersAgree (tcAppend suite name failureMsg skipMsg) ∧
  NumTests (tcAppend suite name failureMsg skipMsg) = NumTests suite ∧
  ∃ tc,
    TestCases (tcAppend suite name failureMsg skipMsg) = TestCases suite ++ [tc] ∧
    tc_Name tc = name ∧
    (is_Some (tc_FailureOutput tc) ↔ failureMsg ≠ "") ∧
    (is_Some (tc_SkipMessage tc) ↔ failureMsg = "" ∧ skipMsg ≠ "").
Proof.
  intros Hc. split; [by apply tcAppend_counters|].
  split; [apply tcAppend_header|].
  unfold tcAppend.
  repeat case_decide;
    repeat match goal with H : ¬ (_ ≠ _) |- _ => apply dec_stable in H end;
    eexists; (split; [reflexivity|]); cbn; unfold is_Some; naive_solver.
Qed.

Lemma X17_tcAppend_keeps_counters_witness :
  countersAgree emptySuite ∧
  countersAgree (tcAppend emptySuite "t" "failed" "skipped") ∧
  NumTests (tcAppend emptySuite "t" "failed" "skipped") = NumTests emptySuite ∧
  ∃ tc,
    TestCases (tcAppend emptySuite "t" "failed" "skipped") = TestCases emptySuite ++ [tc] ∧
    tc_Name tc = "t" ∧
    (is_Some (tc_FailureOutput tc) ↔ "failed" ≠ "") ∧
    (is_Some (tc_SkipMessage tc) ↔ "failed" = "" ∧ "skipped" ≠ "").
Proof.
  assert (countersAgree emptySuite) as Hc by (repeat split; constructor).
  split; [exact Hc|].
  exact (X17_tcAppend_keeps_counters emptySuite "t" "failed" "skipped" Hc).
Defined.

Lemma Run_reported lib ord opt manualDeps start cluster effects :
  Run lib ord opt manualDeps start cluster = Some (Some effects) →
  ∃ suite' failed,
    operatorStage lib ord manualDeps (clusterOperatorsObj cluster)
      (checkMachineNodeConsistency lib (machineList cluster) (machineErr cluster)
         (nodeItems cluster) (nodeErr cluster) emptySuite)
    = Some (Some (suite', failed)) ∧
    reported effects
    = {| suite_Name := suite_Name suite';
         NumTests := uint_of_len (TestCases suite');
         NumSkipped := NumSkipped suite';
         NumFailed := NumFailed suite';
         TestCases := TestCases suite' |}.
Proof.
  unfold Run. intros Hrun.
  destruct (clusterOperatorsErr cluster); [done|].
  destruct (operatorStage _ _ _ _ _) as [[[suite' failed]|]|]; [|done|done].
  exists suite', failed. by simplify_eq.
Qed.

(** X18: the suite a completed run reports is named Cluster Health Check,
    and its three counters say what its list holds: the number of test
    cases, of Failed ones and of Skipped ones (as 64-bit unsigned
    numbers); no case is both Failed and Skipped. *)
Theorem X18_report_counters lib ord opt manualDeps start cluster effects :
  Run lib ord opt manualDeps start cluster = Some (Some effects) →
  suite_Name (reported effects) = "Cluster Health Check" ∧
  NumTests (reported effects) = uint_of_len (TestCases (reported effects)) ∧
  countersAgree (reported effects).
Proof.
  intros (suite' & failed & Hstage & ->)%Run_reported.
  apply operatorStage_grown in Hstage.
  pose proof (checkMachineNodeConsistency_grown lib (machineList cluster)
                (machineErr cluster) (nodeItems cluster) (nodeErr cluster) emptySuite)
    as Hcheck.
  destruct (grownFrom_keeps _ _ (grownFrom_trans _ _ _ Hcheck Hstage))
    as (Hc & Hn & _ & _).
  cbn [suite_Name NumTests TestCases]. split; [by rewrite Hn|]. split; [done|].
  destruct Hc as (Hf & Hs & Hx); [repeat split; constructor|].
  by repeat split.
Qed.

Lemma sampleRun_completes :
  Run sampleLib elementsOrder sampleOptions chainDeps sampleStart sampleData
  = Some (Some sampleEffects).
Proof. by vm_compute. Qed.

Lemma X18_report_counters_witness :
  Run sampleLib elementsOrder sampleOptions chainDeps sampleStart sampleData
    = Some (Some sampleEffects) ∧
  suite_Name (reported sampleEffects) = "Cluster Health Check" ∧
  NumTests (reported sampleEffects) = uint_of_len (TestCases (reported sampleEffects)) ∧
  countersAgree (reported sampleEffects).
Proof.
  split; [exact sampleRun_completes|].
  exact (X18_report_counters sampleLib elementsOrder sampleOptions chainDeps sampleStart
           sampleData sampleEffects sampleRun_completes).
Defined.

Lemma consistencyCases_length lib cluster :
  2 ≤ length (consistencyCases lib cluster) ≤ 4.
Proof.
  unfold consistencyCases.
  destruct (consistency_cases lib (machineList cluster) (machineErr cluster)
              (nodeItems cluster) (nodeErr cluster) emptySuite) as [msg ->].
  rewrite !length_app.
  destruct (machineErr cluster), (nodeErr cluster); cbn [length TestCases emptySuite]; lia.
Qed.

(** X19: the report of a completed run starts with the two to four cases
    of the machine and node check and goes on with the operator cases:
    one per name that the expanded dependency map or the cluster lists. *)
Theorem X19_report_layout lib ord opt manualDeps start cluster effects :
  Run lib ord opt manualDeps start cluster = Some (Some effects) →
  ∃ finalDeps tcs,
    expandDependencies ord manualDeps = Some finalDeps ∧
    TestCases (reported effects) = consistencyCases lib cluster ++ tcs ∧
    2 ≤ length (consistencyCases lib cluster) ≤ 4 ∧
    tc_Name <$> tcs
      ≡ₚ tcNameOf <$> elements (dom finalDeps
                                  ∪ dom (operatorsMapOf lib (clusterOperatorsObj cluster))).
Proof.
  intros (suite' & failed & Hstage & ->)%Run_reported.
  destruct (evaluation_of _ _ _ _ _ _ _ Hstage)
    as (finalDeps & sorted & extras & tcs & Hexp & Hperm & _ & Hextras & Hnd & Htcs
        & Hnames & _).
  exists finalDeps, tcs. split; [done|]. split; [done|].
  split; [apply consistencyCases_length|].
  rewrite Hnames. apply fmap_Permutation, NoDup_Permutation; [done|apply NoDup_elements|].
  intros X. rewrite elem_of_elements.
  by apply (names_of_run ord finalDeps).
Qed.

Lemma X19_report_layout_witness :
  Run sampleLib elementsOrder sampleOptions chainDeps sampleStart sampleData
    = Some (Some sampleEffects) ∧
  ∃ finalDeps tcs,
    expandDependencies elementsOrder chainDeps = Some finalDeps ∧
    TestCases (reported sampleEffects) = consistencyCases sampleLib sampleData ++ tcs ∧
    2 ≤ length (consistencyCases sampleLib sampleData) ≤ 4 ∧
    tc_Name <$> tcs
      ≡ₚ tcNameOf <$> elements (dom finalDeps
                                  ∪ dom (operatorsMapOf sampleLib (clusterOperatorsObj sampleData))).
Proof.
  split; [exact sampleRun_completes|].
  exact (X19_report_layout sampleLib elementsOrder sampleOptions chainDeps sampleStart
           sampleData sampleEffects sampleRun_completes).
Defined.

(** ** Conditions, the cluster version and the listed operators *)

Lemma firstOfType_cases (lib : GoLib) (c : string) (objs : list objxMap) :
  (firstOfType lib c objs = [] ∧ ∀ o, o ∈ objs → conditionType lib o ≠ c) ∨
  firstMatch lib c objs (firstOfType lib c objs).
Proof.
  induction objs as [|obj objs IH].
  { left. split; [done|]. intros o Ho. by apply elem_of_nil in Ho. }
  cbn [firstOfType]. case_decide as Hty.
  - right. exists [], objs. split; [done|]. split; [|done].
    intros o Ho. by apply elem_of_nil in Ho.
  - destruct IH as [[Hnil Hall]|(pre & post & Heq & Hpre & Hty')].
    + left. split; [done|]. intros o [->|Ho]%elem_of_cons; [done|by apply Hall].
    + right. exists (obj :: pre), post. split; [|split; [|done]].
      * rewrite <- app_comm_cons. f_equal. exact Heq.
      * intros o [->|Ho]%elem_of_cons; [done|by apply Hpre].
Qed.

Lemma firstOfType_firstMatch (lib : GoLib) (c : string) (objs : list objxMap)
    (obj : objxMap) :
  firstMatch lib c objs obj → firstOfType lib c objs = obj.
Proof.
  intros (pre & post & -> & Hpre & Hty).
  induction pre as [|o pre IH]; cbn [app firstOfType].
  - by rewrite decide_True.
  - rewrite decide_False by (apply Hpre; by left).
    apply IH. intros o' Ho'. apply Hpre. by right.
Qed.

(** X20: [condition] returns the first record of status.conditions whose
    type, as [Value.String()] prints it, is the one asked for, whatever
    follows it; when no record has that type (or the list is absent) it
    returns the nil map, whose status reads as the empty string. *)
Theorem X20_condition_is_first_match (lib : GoLib) (cv : objxMap) (c : string) :
  (condition lib cv c = [] ∧ conditionStatus lib (condition lib cv c) = "" ∧
   ∀ o, o ∈ conditionsOf cv → conditionType lib o ≠ c)
  ∨ (firstMatch lib c (conditionsOf cv) (condition lib cv c) ∧
     ∀ obj, firstMatch lib c (conditionsOf cv) obj → obj = condition lib cv c).
Proof.
  unfold condition, conditionsOf.
  destruct (firstOfType_cases lib c (objects (Get cv ["status"; "conditions"])))
    as [[Hnil Hall]|Hfirst].
  - left. by rewrite Hnil.
  - right. split; [done|]. intros obj Hobj. by rewrite (firstOfType_firstMatch _ _ _ _ Hobj).
Qed.

Lemma condition_status (lib : GoLib) (cv : objxMap) (c want : string) :
  want ≠ "" →
  conditionStatus lib (condition lib cv c) = want ↔
  ∃ obj, firstMatch lib c (conditionsOf cv) obj ∧ conditionStatus lib obj = want.
Proof.
  intros Hwant. split.
  - intros Hst. destruct (firstOfType_cases lib c (conditionsOf cv)) as [[Hnil _]|Hfirst].
    + unfold condition in Hst. fold (conditionsOf cv) in Hst. by rewrite Hnil in Hst.
    + by exists (condition lib cv c).
  - intros (obj & Hobj & Hst). unfold condition. fold (conditionsOf cv).
    by rewrite (firstOfType_firstMatch _ _ _ _ Hobj).
Qed.

(** X21: the cluster version is found stable exactly when it was fetched
    and the first Available record of its conditions has status True, the
    first Failing record False and the first Progressing record False; a
    version that lacks one of the three is not stable.  An error is
    logged once, a stable version logs nothing at error level. *)
Theorem X21_version_stable_iff (lib : GoLib) (cv : objxMap) (getErr : option string) :
  ((checkClusterVersionStable lib cv getErr).2 = None ↔
   getErr = None ∧
   ∀ c want, (c, want) ∈ stableStatuses →
     ∃ obj, firstMatch lib c (conditionsOf cv) obj ∧ conditionStatus lib obj = want) ∧
  length (checkClusterVersionStable lib cv getErr).1
  = (if (checkClusterVersionStable lib cv getErr).2 is Some _ then 1 else 0).
Proof.
  pose proof (condition_status lib cv "Available" "True") as Ha.
  pose proof (condition_status lib cv "Failing" "False") as Hf.
  pose proof (condition_status lib cv "Progressing" "False") as Hp.
  assert (∀ P : string → string → Prop,
            (∀ c want, (c, want) ∈ stableStatuses → P c want) ↔
            P "Available" "True" ∧ P "Failing" "False" ∧ P "Progressing" "False")
    as Hall.
  { intros P. unfold stableStatuses. split.
    - intros H. repeat split; apply H; set_solver.
    - intros (? & ? & ?) c want Hin.
      repeat (apply elem_of_cons in Hin as [Hin|Hin]; [by simplify_eq|]).
      by apply elem_of_nil in Hin. }
  rewrite (Hall (λ c want, ∃ obj, firstMatch lib c (conditionsOf cv) obj
                                  ∧ conditionStatus lib obj = want)).
  rewrite <- Ha, <- Hf, <- Hp by done.
  unfold checkClusterVersionStable, conditionStatus.
  destruct getErr as [err|]; [split; [|done]; split; [done|by intros [? _]]|].
  cbv zeta. repeat case_decide; cbn [fst snd length]; (split; [|done]);
    repeat match goal with H : ¬ (_ ≠ _) |- _ => apply dec_stable in H end;
    naive_solver.
Qed.

(** A version whose conditions start with an entry that is no record and
    end with a second Available record: the first Available record decides. *)
Example sample_version_is_stable :
  checkClusterVersionStable sampleLib sampleVersion None = ([], None).
Proof. by vm_compute. Qed.

(** A status that is no string is read as its print: the bool true is not
    the string True, and the message shows what was read. *)
Example unquoted_statuses_fail :
  TestCases
    (checkOperator sampleLib ∅ (emptySuite, ∅)
       {| item_Name := "x"; item_Op := Some unquotedStatuses |}).1
  = [tcFailed (tcNameOf "x") (conditionsMsg sampleLib "x" "true" "false" "0")].
Proof. by vm_compute. Qed.

(** A record whose type is the bool true answers to the type asked as the
    string true. *)
Example condition_matches_printed_type :
  conditionStatus sampleLib (condition sampleLib boolTypedConditions "true") = "S1".
Proof. by vm_compute. Qed.

(** Items whose names are numbers are filed under the printed numbers, a
    nil name under the empty string. *)
Example numbered_names_are_kept_apart :
  dom (operatorsMapOf sampleLib numberedCluster) = {[ "1"; "2"; "" ]}.
Proof. by_compute. Qed.

Lemma operatorsMapOf_lookup (lib : GoLib) (items : list objxMap) (name : string) :
  foldl (λ operatorsMap item,
           <[String_ lib (Get item ["metadata"; "name"]) := item]> operatorsMap)
    (∅ : gmap string objxMap) items !! name
  = last (filter (λ item, operatorName lib item = name) items).
Proof.
  induction items as [|x items IH] using rev_ind; [done|].
  rewrite foldl_app, filter_app. cbn [foldl].
  destruct (decide (operatorName lib x = name)) as [Heq|Hne].
  - rewrite filter_cons_True, filter_nil by done.
    rewrite last_snoc. unfold operatorName in Heq. rewrite Heq.
    by rewrite lookup_insert_eq.
  - rewrite filter_cons_False, filter_nil, (right_id_L [] (++)) by done.
    rewrite lookup_insert_ne by done. exact IH.
Qed.

(** X22: the operator that the run knows under a name is the last item of
    the cluster's list whose metadata.name, as [Value.String()] prints it,
    is this name: an earlier item of the same name is dropped, and a name
    that no item carries is not found. *)
Theorem X22_listed_operator_is_last_of_its_name (lib : GoLib) (obj : objxMap)
    (name : string) :
  operatorsMapOf lib obj !! name
  = last (filter (λ item, operatorName lib item = name) (listedItems obj)).
Proof. unfold operatorsMapOf, listedItems. apply operatorsMapOf_lookup. Qed.

(** ** The sequencer on a list without inner dependencies *)

Lemma foldl_fixed {A B} (f : A → B → A) (a : A) (l : list B) :
  (∀ x, x ∈ l → f a x = a) → foldl f a l = a.
Proof.
  induction l as [|x l IH]; intros Hf; [done|].
  cbn [foldl]. rewrite Hf by left. apply IH. intros y Hy. apply Hf. by right.
Qed.

Lemma kahnLoop_no_release (operators : list string) (dependencies : depMap) :
  (∀ op d, op ∈ operators → d ∈ depsOf dependencies op → d ∉ operators) →
  ∀ fuel inDegree queue sorted,
    queue ⊆ operators → length queue ≤ fuel →
    kahnLoop fuel operators dependencies inDegree queue sorted = Some (sorted ++ queue).
Proof.
  intros Hfree fuel. induction fuel as [|fuel IH]; intros inDegree queue sorted Hsub Hlen.
  { destruct queue; [|simpl in Hlen; lia]. by rewrite (right_id_L [] (++)). }
  destruct queue as [|node queue]; [by rewrite (right_id_L [] (++))|].
  cbn [kahnLoop]. cbv zeta.
  assert (releaseNode node operators dependencies (inDegree, queue) = (inDegree, queue))
    as ->.
  { unfold releaseNode. apply foldl_fixed. intros op Hop. unfold releaseStep.
    assert (stringInSlice node (depsOf dependencies op) = false) as ->; [|done].
    apply stringInSlice_false. intros Hin.
    apply (Hfree op node Hop Hin), Hsub. by left. }
  rewrite IH.
  - by rewrite <- (assoc_L (++)).
  - intros x Hx. apply Hsub. by right.
  - simpl in Hlen. lia.
Qed.

(** X23: when no operator of the list depends on an operator of the list,
    the sequencer returns the list as it was given, repeated entries
    included, and reports no cycle. *)
Theorem X23_no_inner_dependency_keeps_the_order (operators : list string)
    (dependencies : depMap) :
  (∀ op d, op ∈ operators → d ∈ depsOf dependencies op → d ∉ operators) →
  TopologicalSort operators dependencies = Some (operators, None).
Proof.
  intros Hfree. unfold TopologicalSort. cbv zeta.
  assert (countInDegree operators dependencies (initInDegree operators)
          = initInDegree operators) as ->.
  { unfold countInDegree. apply foldl_fixed. intros op Hop.
    apply foldl_fixed. intros d Hd.
    assert (stringInSlice d operators = false) as ->; [|done].
    apply stringInSlice_false. by apply (Hfree op). }
  assert (seedQueue operators (initInDegree operators) = operators) as ->.
  { unfold seedQueue. generalize (initInDegree operators) (degreeOf_initInDegree operators).
    intros m Hm. induction operators as [|op ops IH] in |- *; [done|].
    rewrite filter_cons_True by apply Hm. by rewrite IH. }
  rewrite (kahnLoop_no_release operators dependencies Hfree) by (done || lia).
  cbn [app]. by rewrite decide_False by (by intros ?).
Qed.

Lemma X23_no_inner_dependency_keeps_the_order_witness :
  (∀ op d, op ∈ ["b"; "a"; "b"] →
           d ∈ depsOf ({["b" := ["z"]]} : depMap) op → d ∉ ["b"; "a"; "b"]) ∧
  TopologicalSort ["b"; "a"; "b"] {["b" := ["z"]]} = Some (["b"; "a"; "b"], None).
Proof.
  assert (∀ op d, op ∈ ["b"; "a"; "b"] →
                  d ∈ depsOf ({["b" := ["z"]]} : depMap) op → d ∉ ["b"; "a"; "b"])
    as Hfree.
  { intros op d _ Hd. unfold depsOf in Hd.
    destruct (decide (op = "b")) as [->|Hne].
    - rewrite lookup_singleton_eq in Hd. apply list_elem_of_singleton in Hd as ->.
      by_compute.
    - rewrite lookup_singleton_ne in Hd by done. by apply elem_of_nil in Hd. }
  split; [exact Hfree|].
  exact (X23_no_inner_dependency_keeps_the_order ["b"; "a"; "b"] {["b" := ["z"]]} Hfree).
Defined.
